(** * The TTL'd IP blacklist of the key-exchange relay

    Shallow embedding of [keyexchange/filtering/blacklist.py]: the
    [Blacklist] class (an in-memory set of IPs, a dict of expiry times and
    a dirty flag) and its synchronisation with a shared cache server through
    [get] and [cas].

    Modelling choices, all visible in the definitions below:
    - [self.ips] is a [gset string], [self._ttls] a [gmap string (option Z)]
      whose values are Python's [None] or an absolute expiry time;
    - clock readings ([time.time()]) are integers handed to the operations
      that read the clock; only [+], [-] and [<= 0] are used on them;
    - the cache server is an interface (a record of its two methods) over a
      store that is threaded through every call; the store also carries the
      list of calls made on the server so far;
    - what the cache server stores is a value (memcached pickles the tuple
      it is given), not a reference to the live set and dict;
    - a Python exception is an [outcome] next to the state reached when it
      was raised;
    - the re-entrant lock only serialises the methods of one instance and is
      not represented: every operation below runs atomically;
    - the [_Syncer] thread is not represented: what it does to a blacklist
      is a call of [save], which a schedule of operations can hold at any
      place. *)

From stdpp Require Import base strings gmap list.
From Stdlib Require Import ZArith Lia.

Local Open Scope Z_scope.

(** ** Data model *)

(** What is stored under the blacklist key: the pair [(self.ips, self._ttls)]. *)
Definition snapshot : Type := gset string * gmap string (option Z).

(** The key used for every call on the cache server. *)
Definition blacklist_key : string := "keyexchange:blacklist".

(** One call made on the cache server, with what it answered. *)
Inductive event : Type :=
| EvGet (key : string) (res : option snapshot)
| EvCas (key : string) (data : snapshot) (ok : bool).

(** The two methods of the cache server that the blacklist calls, over a
    store of type [B].  Both may change the store: whatever other clients do
    between two calls is part of the store's own transition. *)
Record CacheServer (B : Type) : Type := {
  cache_get : string -> B -> option snapshot * B;
  cache_cas : string -> snapshot -> B -> bool * B
}.
Arguments cache_get {B} _ _ _.
Arguments cache_cas {B} _ _ _ _.

(** The shared world: the store behind the cache server and the calls made
    on the server so far (most recent last). *)
Record World (B : Type) : Type := {
  store : B;
  calls : list event
}.
Arguments store {B} _.
Arguments calls {B} _.
Arguments Build_World {B} _ _.

(** Python exceptions raised by the methods. *)
Inductive exn : Type :=
| KeyError (key : string).

Inductive outcome (A : Type) : Type :=
| Return (a : A)
| Raise (e : exn).
Arguments Return {A} _.
Arguments Raise {A} _.

Section Blacklist.

Context {B : Type}.

(** The attributes of a [Blacklist] object. *)
Record Blacklist : Type := {
  _ttls : gmap string (option Z);
  _cache_server : option (CacheServer B);
  ips : gset string;
  _dirty : bool
}.

(** [Blacklist.__init__] *)
Definition init (cache_server : option (CacheServer B)) : Blacklist :=
  {| _ttls := ∅; _cache_server := cache_server; ips := ∅; _dirty := false |}.

Definition set_ttls (bl : Blacklist) (t : gmap string (option Z)) : Blacklist :=
  {| _ttls := t; _cache_server := _cache_server bl; ips := ips bl;
     _dirty := _dirty bl |}.

Definition set_ips (bl : Blacklist) (s : gset string) : Blacklist :=
  {| _ttls := _ttls bl; _cache_server := _cache_server bl; ips := s;
     _dirty := _dirty bl |}.

Definition set_dirty (bl : Blacklist) (d : bool) : Blacklist :=
  {| _ttls := _ttls bl; _cache_server := _cache_server bl; ips := ips bl;
     _dirty := d |}.

(** ** Calls on the cache server *)

Definition server_get (cs : CacheServer B) (key : string) (w : World B)
  : option snapshot * World B :=
  let '(res, s) := cache_get cs key (store w) in
  (res, Build_World s (calls w ++ [EvGet key res])).

Definition server_cas (cs : CacheServer B) (key : string) (data : snapshot)
    (w : World B) : bool * World B :=
  let '(ok, s) := cache_cas cs key data (store w) in
  (ok, Build_World s (calls w ++ [EvCas key data ok])).

(** ** Python's set and dict methods *)

(** [s.issuperset(t)] *)
Definition issuperset (s t : gset string) : bool := bool_decide (t ⊆ s).

(** [s.union(t)]: builds and returns a new set, [s] is left as it is. *)
Definition set_union (s t : gset string) : gset string := s ∪ t.

(** [d.update(e)]: the entries of [e] are written into [d]. *)
Definition dict_update (d e : gmap string (option Z)) : gmap string (option Z) :=
  e ∪ d.

(** ** The methods of [Blacklist] *)

(** [Blacklist.update]: the value of [self.ips.union(ips)] is dropped. *)
Definition update (bl : Blacklist) (w : World B) : Blacklist * World B :=
  match _cache_server bl with
  | None => (bl, w)
  | Some cs =>
      let '(data, w1) := server_get cs blacklist_key w in
      match data with
      | Some (rips, rttls) =>
          if negb (issuperset (ips bl) rips) then
            let _ := set_union (ips bl) rips in
            (set_ttls bl (dict_update (_ttls bl) rttls), w1)
          else (bl, w1)
      | None => (bl, w1)
      end
  end.

(** The [while tries < 10] loop of [Blacklist.save].  [fuel] bounds the
    number of iterations the model may run; [None] means it ran out. *)
Fixpoint save_loop (fuel : nat) (tries : Z) (cs : CacheServer B)
    (bl : Blacklist) (w : World B) : option (Blacklist * World B) :=
  if tries <? 10 then
    match fuel with
    | O => None
    | S fuel' =>
        let data := (ips bl, _ttls bl) in
        let '(ok, w1) := server_cas cs blacklist_key data w in
        if ok then Some (set_dirty bl false, w1)
        else
          let '(bl2, w2) := update bl w1 in
          save_loop fuel' (tries + 1) cs bl2 w2
    end
  else Some (bl, w).

(** [Blacklist.save], run with [fuel] iterations available to its loop. *)
Definition save_with (fuel : nat) (bl : Blacklist) (w : World B)
  : option (Blacklist * World B) :=
  match _cache_server bl with
  | None => Some (bl, w)
  | Some cs =>
      if negb (_dirty bl) then Some (bl, w)
      else save_loop fuel 0 cs bl w
  end.

(** Ten iterations are all the loop can ever use (see [save_loop_returns]). *)
Definition save (bl : Blacklist) (w : World B) : option (Blacklist * World B) :=
  save_with 10 bl w.

(** [Blacklist.add]; [now] is the value of [time.time()]. *)
Definition add (bl : Blacklist) (elmt : string) (ttl : option Z) (now : Z)
  : Blacklist :=
  let bl1 := set_ips bl (ips bl ∪ {[elmt]}) in
  let bl2 :=
    match ttl with
    | Some d => set_ttls bl1 (<[elmt := Some (now + d)]> (_ttls bl1))
    | None => set_ttls bl1 (<[elmt := None]> (_ttls bl1))
    end in
  set_dirty bl2 true.

(** [Blacklist.remove]: [set.remove] and [del] both raise [KeyError] on a
    missing key; the second one does so after the set was changed. *)
Definition remove (bl : Blacklist) (elmt : string) : Blacklist * outcome unit :=
  if decide (elmt ∈ ips bl) then
    let bl1 := set_ips bl (ips bl ∖ {[elmt]}) in
    match _ttls bl1 !! elmt with
    | Some _ =>
        (set_dirty (set_ttls bl1 (delete elmt (_ttls bl1))) true, Return tt)
    | None => (bl1, Raise (KeyError elmt))
    end
  else (bl, Raise (KeyError elmt)).

(** [Blacklist.__contains__]; [now] is the value of [time.time()]. *)
Definition contains (bl : Blacklist) (elmt : string) (now : Z)
  : Blacklist * outcome bool :=
  let found := bool_decide (elmt ∈ ips bl) in
  if found then
    match _ttls bl !! elmt with
    | None => (bl, Raise (KeyError elmt))
    | Some None => (bl, Return true)
    | Some (Some t) =>
        if t - now <=? 0 then
          match remove bl elmt with
          | (bl1, Return _) => (bl1, Return false)
          | (bl1, Raise e) => (bl1, Raise e)
          end
        else (bl, Return found)
    end
  else (bl, Return found).

(** [Blacklist.__len__] *)
Definition len (bl : Blacklist) : nat := size (ips bl).

End Blacklist.

Arguments Blacklist : clear implicits.

(** ** Operations on one instance *)

(** A call of one public method, with the clock reading it makes. *)
Inductive op : Type :=
| OpAdd (elmt : string) (ttl : option Z) (now : Z)
| OpRemove (elmt : string)
| OpContains (elmt : string) (now : Z)
| OpUpdate
| OpSave.

(** What a method hands back: [None] or a boolean. *)
Inductive value : Type :=
| VNone
| VBool (b : bool).

Definition lift_outcome {A : Type} (f : A -> value) (o : outcome A)
  : outcome value :=
  match o with
  | Return a => Return (f a)
  | Raise e => Raise e
  end.

Section Run.

Context {B : Type}.

Definition run_op (o : op) (bl : Blacklist B) (w : World B)
  : option (Blacklist B * World B * outcome value) :=
  match o with
  | OpAdd elmt ttl now => Some (add bl elmt ttl now, w, Return VNone)
  | OpRemove elmt =>
      let '(bl1, r) := remove bl elmt in
      Some (bl1, w, lift_outcome (fun _ => VNone) r)
  | OpContains elmt now =>
      let '(bl1, r) := contains bl elmt now in
      Some (bl1, w, lift_outcome VBool r)
  | OpUpdate =>
      let '(bl1, w1) := update bl w in Some (bl1, w1, Return VNone)
  | OpSave =>
      match save bl w with
      | Some (bl1, w1) => Some (bl1, w1, Return VNone)
      | None => None
      end
  end.

(** A caller that runs the operations one after the other and goes on after
    an exception. *)
Fixpoint run_ops (os : list op) (bl : Blacklist B) (w : World B)
  : option (Blacklist B * World B) :=
  match os with
  | [] => Some (bl, w)
  | o :: os' =>
      match run_op o bl w with
      | Some (bl1, w1, _) => run_ops os' bl1 w1
      | None => None
      end
  end.

(** Every IP of the set has an entry in the TTL dict. *)
Definition ttls_cover (bl : Blacklist B) : Prop := ips bl ⊆ dom (_ttls bl).

(** [elmt] is listed with the expiry [None]. *)
Definition listed_forever (elmt : string) (bl : Blacklist B) : Prop :=
  elmt ∈ ips bl /\ _ttls bl !! elmt = Some None.

(** The shape of the calls one [save] makes: failed rounds, each a refused
    [cas] followed by a [get], then at most one accepted [cas]. *)
Definition round_calls (r : snapshot * option snapshot) : list event :=
  [EvCas blacklist_key r.1 false; EvGet blacklist_key r.2].

Definition final_calls (f : option snapshot) : list event :=
  match f with
  | Some data => [EvCas blacklist_key data true]
  | None => []
  end.

Definition is_cas (e : event) : bool :=
  match e with EvCas _ _ _ => true | EvGet _ _ => false end.

Definition is_accepted_cas (e : event) : bool :=
  match e with EvCas _ _ ok => ok | EvGet _ _ => false end.

(** Operations that leave a [None] expiry of [elmt] in place on their own:
    all but [remove(elmt)] and [add(elmt, ttl)] with a TTL. *)
Definition keeps_entry (elmt : string) (o : op) : bool :=
  match o with
  | OpRemove e => negb (bool_decide (e = elmt))
  | OpAdd e (Some _) _ => negb (bool_decide (e = elmt))
  | _ => true
  end.

(** The expiry a fetched snapshot carries for [elmt], if it is a time. *)
Definition fetched_expiry (elmt : string) (e : event) : option Z :=
  match e with
  | EvGet _ (Some (_, rttls)) =>
      match rttls !! elmt with
      | Some (Some t) => Some t
      | _ => None
      end
  | _ => None
  end.

(** None of the snapshots fetched by these calls carries an expiry time
    for [elmt]. *)
Definition no_expiry_fetched (elmt : string) (new : list event) : Prop :=
  Forall (fun e => fetched_expiry elmt e = None) new.

End Run.

(** ** A cache server to run examples on *)

Module SharedStore.

(** Modelled from the spec: the key/value backend is an external
    collaborator whose code is not part of the repository; the spec asks of
    it a [get] and a compare-and-swap that writes only if no other writer
    changed the value in between.  The store holds the values by key and the
    writes other clients will make: at each [cas], [Some s] at the head
    means another client has just stored [s] (the [cas] is refused), [None]
    or an empty list means nobody interfered (the [cas] is accepted). *)
Record t : Type := {
  content : gmap string snapshot;
  interference : list (option snapshot)
}.

Definition get (key : string) (s : t) : option snapshot * t :=
  (content s !! key, s).

Definition cas (key : string) (data : snapshot) (s : t) : bool * t :=
  match interference s with
  | Some other :: rest =>
      (false, {| content := <[key := other]> (content s); interference := rest |})
  | None :: rest =>
      (true, {| content := <[key := data]> (content s); interference := rest |})
  | [] =>
      (true, {| content := <[key := data]> (content s); interference := [] |})
  end.

Definition server : CacheServer t := {| cache_get := get; cache_cas := cas |}.

Definition empty : World t :=
  Build_World {| content := ∅; interference := [] |} [].

(** A world whose store already holds [s] under the blacklist key. *)
Definition holding (s : snapshot) (script : list (option snapshot)) : World t :=
  Build_World {| content := {[blacklist_key := s]}; interference := script |} [].

End SharedStore.

(** Two instances that share one cache server. *)
Inductive instance : Type := InstA | InstB.

Section Pair.

Context {B : Type}.

Fixpoint run_pair (sched : list (instance * op)) (a b : Blacklist B)
    (w : World B) : option (Blacklist B * Blacklist B * World B) :=
  match sched with
  | [] => Some (a, b, w)
  | (InstA, o) :: rest =>
      match run_op o a w with
      | Some (a1, w1, _) => run_pair rest a1 b w1
      | None => None
      end
  | (InstB, o) :: rest =>
      match run_op o b w with
      | Some (b1, w1, _) => run_pair rest a b1 w1
      | None => None
      end
  end.

End Pair.

(** ** Scenarios used as concrete inputs *)

Definition ip1 : string := "10.0.0.1".
Definition ip2 : string := "10.0.0.2".

(** Each instance adds one IP, each publishes, each pulls. *)
Definition convergence_schedule : list (instance * op) :=
  [ (InstA, OpAdd ip1 None 0); (InstB, OpAdd ip2 None 0);
    (InstA, OpSave); (InstB, OpSave);
    (InstA, OpUpdate); (InstB, OpUpdate) ].

(** A local instance that knows [ip1] without expiry. *)
Definition local_ip1 : Blacklist SharedStore.t :=
  add (init (Some SharedStore.server)) ip1 None 0.

(** An instance without cache server that knows [ip1] until time 5. *)
Definition expiring_ip1 : Blacklist SharedStore.t :=
  add (init None) ip1 (Some 5) 0.

(** What a caller does after adding [ip1] without expiry: checks, other
    additions and removals, a publish and a pull. *)
Definition busy_caller : list op :=
  [ OpContains ip1 1000; OpAdd ip2 (Some 1) 0; OpContains ip2 5;
    OpAdd ip1 None 7; OpSave; OpUpdate; OpRemove ip2; OpContains ip1 2000 ].

(** The remote snapshot knows the same IP, with an expiry at time 100. *)
Definition remote_same_ip : snapshot := ({[ip1]}, {[ip1 := Some 100]}).

(** The remote snapshot knows [ip1] with an expiry at time 50, and [ip2]. *)
Definition remote_two_ips : snapshot :=
  ({[ip1; ip2]}, <[ip1 := Some 50]> {[ip2 := None]}).

(** The remote snapshot knows only [ip2]. *)
Definition remote_new_ip : snapshot := ({[ip2]}, {[ip2 := None]}).

(** A store on which every one of the next ten [cas] calls is refused,
    another client having stored [remote_new_ip] each time. *)
Definition contended : World SharedStore.t :=
  SharedStore.holding remote_new_ip (replicate 10 (Some remote_new_ip)).

(** ** Vocabulary of the further properties *)

(** The key a call on the cache server was made on. *)
Definition event_key (e : event) : string :=
  match e with
  | EvGet key _ => key
  | EvCas key _ _ => key
  end.

(** The snapshot of the most recent accepted [cas] among these calls. *)
Fixpoint last_accepted (l : list event) : option snapshot :=
  match l with
  | [] => None
  | e :: l' =>
      match last_accepted l' with
      | Some data => Some data
      | None =>
          match e with
          | EvCas _ data true => Some data
          | _ => None
          end
      end
  end.

(** The IP a local operation is about; a pull and a publish have none. *)
Definition op_subject (o : op) : option string :=
  match o with
  | OpAdd elmt _ _ | OpRemove elmt | OpContains elmt _ => Some elmt
  | OpUpdate | OpSave => None
  end.

Definition is_pull (o : op) : bool :=
  match o with OpUpdate => true | _ => false end.

(** A clean blacklist is what the server last accepted from it, or still
    empty when nothing was accepted yet. *)
Definition clean_is_published {B : Type} (bl : Blacklist B) (w : World B)
  : Prop :=
  _dirty bl = false ->
  match last_accepted (calls w) with
  | Some data => data = (ips bl, _ttls bl)
  | None => ips bl = ∅ /\ _ttls bl = ∅
  end.

(** What a local operation about [elmt] does to the blacklist: nothing, an
    entry written, an entry taken out, or the IP taken out of the set
    alone.  These are the four shapes the code of [add], [remove] and
    [__contains__] can produce; [run_op_local] proves it. *)
Inductive change : Type :=
| Keep
| Put (v : option Z)
| Drop
| DropFromSet.

Definition apply_change {B : Type} (elmt : string) (c : change)
    (bl : Blacklist B) : Blacklist B :=
  match c with
  | Keep => bl
  | Put v =>
      set_dirty (set_ttls (set_ips bl (ips bl ∪ {[elmt]}))
                          (<[elmt := v]> (_ttls bl))) true
  | Drop =>
      set_dirty (set_ttls (set_ips bl (ips bl ∖ {[elmt]}))
                          (delete elmt (_ttls bl))) true
  | DropFromSet => set_ips bl (ips bl ∖ {[elmt]})
  end.

(** The shape and the outcome of a local operation, from whether its IP is
    in the set and from its TTL entry. *)
Definition local_change (o : op) (listed : bool) (entry : option (option Z))
  : change :=
  match o with
  | OpAdd _ ttl now => Put ((fun d => now + d) <$> ttl)
  | OpRemove _ =>
      if listed then match entry with Some _ => Drop | None => DropFromSet end
      else Keep
  | OpContains _ now =>
      match listed, entry with
      | true, Some (Some t) => if t - now <=? 0 then Drop else Keep
      | _, _ => Keep
      end
  | OpUpdate | OpSave => Keep
  end.

Definition local_outcome (o : op) (listed : bool) (entry : option (option Z))
  : outcome value :=
  match o with
  | OpAdd _ _ _ => Return VNone
  | OpRemove e =>
      match listed, entry with
      | true, Some _ => Return VNone
      | _, _ => Raise (KeyError e)
      end
  | OpContains e now =>
      match listed, entry with
      | true, Some (Some t) => Return (VBool (negb (t - now <=? 0)))
      | true, Some None => Return (VBool true)
      | true, None => Raise (KeyError e)
      | false, _ => Return (VBool false)
      end
  | OpUpdate | OpSave => Return VNone
  end.

(** A [cas] that carries a snapshot each IP of which has a TTL entry (a
    [get] carries nothing). *)
Definition carries_covered (e : event) : Prop :=
  match e with
  | EvCas _ data _ => data.1 ⊆ dom data.2
  | EvGet _ _ => True
  end.

(** A blacklist whose set was changed from outside the class,
    [bl.ips.add(ip1)]: the IP has no TTL entry. *)
Definition tampered : Blacklist SharedStore.t :=
  set_ips (init None) {[ip1]}.

(** A caller that never pulls on its own. *)
Definition publishing_caller : list op :=
  [ OpAdd ip1 (Some 5) 0; OpSave; OpContains ip1 3; OpSave;
    OpContains ip1 9; OpSave; OpAdd ip2 None 10; OpRemove ip2; OpSave ].

(** Decidable facts about concrete blacklists, settled by evaluation. *)
Ltac by_evaluation :=
  unfold ttls_cover;
  first [ apply (bool_decide_eq_true_1 _); vm_compute; reflexivity
        | apply (bool_decide_eq_false_1 _); vm_compute; reflexivity ].

(** ** Facts about [update] *)

Section UpdateFacts.

Context {B : Type}.
Implicit Types (bl : Blacklist B) (w : World B).

Lemma update_ips bl w : ips (update bl w).1 = ips bl.
Proof.
  unfold update. destruct (_cache_server bl) as [cs|]; [|done].
  destruct (server_get cs blacklist_key w) as [[[rips rttls]|] w1]; [|done].
  by destruct (negb (issuperset (ips bl) rips)); simpl.
Qed.

Lemma update_dirty bl w : _dirty (update bl w).1 = _dirty bl.
Proof.
  unfold update. destruct (_cache_server bl) as [cs|]; [|done].
  destruct (server_get cs blacklist_key w) as [[[rips rttls]|] w1]; [|done].
  by destruct (negb (issuperset (ips bl) rips)); simpl.
Qed.

Lemma update_server bl w : _cache_server (update bl w).1 = _cache_server bl.
Proof.
  unfold update. destruct (_cache_server bl) as [cs|] eqn:Hcs; [|done].
  destruct (server_get cs blacklist_key w) as [[[rips rttls]|] w1]; [|done].
  by destruct (negb (issuperset (ips bl) rips)); simpl.
Qed.

Lemma dict_update_lookup_remote (d e : gmap string (option Z)) k v :
  e !! k = Some v -> dict_update d e !! k = Some v.
Proof. intros H. unfold dict_update. by apply lookup_union_Some_l. Qed.

Lemma dict_update_lookup_local (d e : gmap string (option Z)) k :
  e !! k = None -> dict_update d e !! k = d !! k.
Proof. intros H. unfold dict_update. by apply lookup_union_r. Qed.

Lemma dict_update_is_Some (d e : gmap string (option Z)) k :
  is_Some (d !! k) -> is_Some (dict_update d e !! k).
Proof.
  intros Hd. destruct (e !! k) as [v|] eqn:He.
  - rewrite (dict_update_lookup_remote _ _ _ _ He). eauto.
  - by rewrite dict_update_lookup_local.
Qed.

(** A pull never removes a key of the TTL dict. *)
Lemma update_ttls_keep bl w k :
  is_Some (_ttls bl !! k) -> is_Some (_ttls (update bl w).1 !! k).
Proof.
  intros Hk. unfold update. destruct (_cache_server bl) as [cs|]; [|done].
  destruct (server_get cs blacklist_key w) as [[[rips rttls]|] w1]; [|done].
  destruct (negb (issuperset (ips bl) rips)); [|done].
  simpl. by apply dict_update_is_Some.
Qed.

(** What a pull does, case by case, and the one call it makes. *)
Lemma update_cases bl w cs :
  _cache_server bl = Some cs ->
  exists res,
    calls (update bl w).2 = calls w ++ [EvGet blacklist_key res] /\
    res = (cache_get cs blacklist_key (store w)).1 /\
    match res with
    | Some (rips, rttls) =>
        if issuperset (ips bl) rips then (update bl w).1 = bl
        else (update bl w).1 = set_ttls bl (dict_update (_ttls bl) rttls)
    | None => (update bl w).1 = bl
    end.
Proof.
  intros Hcs. unfold update, server_get. rewrite Hcs.
  destruct (cache_get cs blacklist_key (store w)) as [res s] eqn:Hget.
  exists res. destruct res as [[rips rttls]|]; simpl; [|done].
  by destruct (issuperset (ips bl) rips).
Qed.

End UpdateFacts.

(** ** Facts about the retry loop of [save] *)

Section SaveFacts.

Context {B : Type}.
Implicit Types (bl : Blacklist B) (w : World B) (cs : CacheServer B).

(** One iteration of the loop, as an equation. *)
Lemma save_loop_step fuel tries cs bl w :
  tries < 10 ->
  save_loop (S fuel) tries cs bl w =
  let '(ok, w1) := server_cas cs blacklist_key (ips bl, _ttls bl) w in
  if ok then Some (set_dirty bl false, w1)
  else save_loop fuel (tries + 1) cs (update bl w1).1 (update bl w1).2.
Proof.
  intros Hlt. simpl. apply Z.ltb_lt in Hlt. rewrite Hlt.
  destruct (server_cas cs blacklist_key (ips bl, _ttls bl) w) as [[] w1];
    [done|].
  by destruct (update bl w1).
Qed.

Lemma save_loop_exit fuel tries cs bl w :
  10 <= tries -> save_loop fuel tries cs bl w = Some (bl, w).
Proof.
  intros Hge. apply Z.ltb_ge in Hge. destruct fuel; simpl; by rewrite Hge.
Qed.

Lemma server_cas_calls cs key data w :
  calls (server_cas cs key data w).2 =
  calls w ++ [EvCas key data (server_cas cs key data w).1].
Proof.
  unfold server_cas. by destruct (cache_cas cs key data (store w)).
Qed.

(** Whatever a pull and the clearing of the dirty flag preserve, the loop
    preserves. *)
Lemma save_loop_preserves (P : Blacklist B -> Prop) :
  (forall bl w, P bl -> P (update bl w).1) ->
  (forall bl, P bl -> P (set_dirty bl false)) ->
  forall fuel tries cs bl w r,
    P bl -> save_loop fuel tries cs bl w = Some r -> P r.1.
Proof.
  intros Hupd Hclr fuel.
  induction fuel as [|fuel IH]; intros tries cs bl w r HP Hrun.
  - simpl in Hrun. destruct (tries <? 10); [done|]. by inversion Hrun.
  - destruct (Z.lt_ge_cases tries 10) as [Hlt|Hge].
    + rewrite save_loop_step in Hrun by done.
      destruct (server_cas cs blacklist_key (ips bl, _ttls bl) w) as [[] w1].
      * inversion Hrun. by apply Hclr.
      * eapply IH; [|exact Hrun]. by apply Hupd.
    + rewrite save_loop_exit in Hrun by done. by inversion Hrun.
Qed.

(** With as much fuel as there are tries left, the loop returns, and the
    calls it makes are failed rounds followed by at most one accepted
    [cas]; the dirty flag is cleared in that last case only. *)
Lemma save_loop_trace fuel : forall tries cs bl w,
  0 <= tries <= 10 ->
  (Z.to_nat (10 - tries) <= fuel)%nat ->
  _cache_server bl = Some cs ->
  exists bl' w' rounds final,
    save_loop fuel tries cs bl w = Some (bl', w') /\
    calls w' = calls w ++ concat (map round_calls rounds) ++ final_calls final /\
    match final with
    | Some data =>
        Z.of_nat (length rounds) < 10 - tries /\
        _dirty bl' = false /\ data = (ips bl', _ttls bl')
    | None =>
        Z.of_nat (length rounds) = 10 - tries /\ _dirty bl' = _dirty bl
    end.
Proof.
  induction fuel as [|fuel IH]; intros tries cs bl w Htries Hfuel Hcs.
  - assert (tries = 10) as -> by lia.
    exists bl, w, [], None. simpl. rewrite app_nil_r. done.
  - destruct (Z.lt_ge_cases tries 10) as [Hlt|Hge].
    + rewrite save_loop_step by done.
      pose proof (server_cas_calls cs blacklist_key (ips bl, _ttls bl) w) as Hc.
      destruct (server_cas cs blacklist_key (ips bl, _ttls bl) w) as [[] w1];
        simpl in Hc.
      * exists (set_dirty bl false), w1, [], (Some (ips bl, _ttls bl)).
        simpl. split; [done|]. split; [done|]. split; [lia|done].
      * destruct (update_cases bl w1 cs Hcs) as (res & Hcalls & _ & _).
        destruct (IH (tries + 1) cs (update bl w1).1 (update bl w1).2)
          as (bl' & w' & rounds & final & Hrun & Htrace & Hfinal).
        { lia. } { lia. } { by rewrite update_server. }
        exists bl', w', (((ips bl, _ttls bl), res) :: rounds), final.
        split; [done|]. split.
        { rewrite Htrace, Hcalls, Hc. simpl. by rewrite <- !app_assoc. }
        rewrite update_dirty in Hfinal.
        destruct final as [data|]; simpl; [|split; [lia|tauto]].
        destruct Hfinal as (? & ? & ?). split; [lia|done].
    + assert (tries = 10) as -> by lia.
      rewrite save_loop_exit by done.
      exists bl, w, [], None. simpl. rewrite app_nil_r. done.
Qed.

(** [save] always returns: ten iterations of fuel are enough. *)
Lemma save_returns bl w : is_Some (save bl w).
Proof.
  unfold save, save_with. destruct (_cache_server bl) as [cs|] eqn:Hcs; [|eauto].
  destruct (negb (_dirty bl)); [eauto|].
  destruct (save_loop_trace 10 0 cs bl w) as (bl' & w' & ? & ? & Hrun & _);
    [lia|simpl; lia|done|].
  rewrite Hrun. eauto.
Qed.

(** More fuel changes nothing. *)
Lemma save_with_fuel fuel bl w :
  (10 <= fuel)%nat -> save_with fuel bl w = save bl w.
Proof.
  intros Hfuel. unfold save, save_with.
  destruct (_cache_server bl) as [cs|] eqn:Hcs; [|done].
  destruct (negb (_dirty bl)); [done|].
  assert (forall f1 f2 tries cs bl w r,
    save_loop f1 tries cs bl w = Some r -> (f1 <= f2)%nat ->
    save_loop f2 tries cs bl w = Some r) as Hmono.
  { clear. induction f1 as [|f1 IH]; intros f2 tries cs bl w r Hrun Hle.
    - simpl in Hrun. destruct (tries <? 10) eqn:Ht; [done|].
      destruct f2; simpl; by rewrite Ht.
    - destruct f2 as [|f2]; [lia|].
      destruct (Z.lt_ge_cases tries 10) as [Hlt|Hge].
      + rewrite save_loop_step in Hrun |- * by done.
        destruct (server_cas cs blacklist_key (ips bl, _ttls bl) w) as [[] w1];
          [done|].
        eapply IH; [exact Hrun|lia].
      + rewrite save_loop_exit in Hrun |- * by done. done. }
  destruct (save_loop_trace 10 0 cs bl w) as (bl' & w' & ? & ? & Hrun & _);
    [lia|simpl; lia|done|].
  rewrite Hrun. by apply (Hmono 10%nat fuel).
Qed.

(** The early return of [save]. *)
Lemma save_with_early fuel bl w :
  _dirty bl = false \/ _cache_server bl = None ->
  save_with fuel bl w = Some (bl, w).
Proof.
  intros H. unfold save_with. destruct H as [Hd|Hn].
  - rewrite Hd. by destruct (_cache_server bl).
  - by rewrite Hn.
Qed.

Lemma save_ips bl w r : save bl w = Some r -> ips r.1 = ips bl.
Proof.
  unfold save, save_with. destruct (_cache_server bl) as [cs|].
  - destruct (negb (_dirty bl)); [by intros [= <-]|].
    apply (save_loop_preserves (fun b => ips b = ips bl)); [| |done].
    + intros b w0 Hb. by rewrite update_ips.
    + done.
  - by intros [= <-].
Qed.

End SaveFacts.

(** ** Pulling the remote snapshot *)

Section Pull.

Context {B : Type}.
Implicit Types (bl : Blacklist B) (w : World B) (cs : CacheServer B).

(** C1, as amended.  For a blacklist with a cache server and a snapshot
    [(rips, rttls)] stored under the blacklist key, [update] makes one [get]
    and never drops a local IP or a key of the local TTL dict; when [rips]
    holds an IP the local set does not have, every entry of [rttls] is in
    the local TTL dict afterwards and the keys [rttls] lacks keep their
    local value; when [rips] is included in the local set, the blacklist is
    left exactly as it was, TTL dict included. *)
Theorem update_merges_ttls bl w cs rips rttls :
  _cache_server bl = Some cs ->
  (cache_get cs blacklist_key (store w)).1 = Some (rips, rttls) ->
  calls (update bl w).2 =
    calls w ++ [EvGet blacklist_key (Some (rips, rttls))] /\
  ips bl ⊆ ips (update bl w).1 /\
  (forall k, is_Some (_ttls bl !! k) -> is_Some (_ttls (update bl w).1 !! k)) /\
  (~ rips ⊆ ips bl ->
     (forall k v, rttls !! k = Some v -> _ttls (update bl w).1 !! k = Some v) /\
     (forall k, rttls !! k = None ->
                _ttls (update bl w).1 !! k = _ttls bl !! k)) /\
  (rips ⊆ ips bl -> (update bl w).1 = bl).
Proof.
  intros Hcs Hget.
  destruct (update_cases bl w cs Hcs) as (res & Hcalls & Hres & Hcase).
  rewrite Hget in Hres. subst res. split; [done|].
  split; [by rewrite update_ips|].
  split; [intros k; apply update_ttls_keep|].
  unfold issuperset in Hcase. split.
  - intros Hnew. rewrite bool_decide_eq_false_2 in Hcase by done.
    rewrite Hcase. simpl. split.
    + intros k v. apply dict_update_lookup_remote.
    + intros k. apply dict_update_lookup_local.
  - intros Hsub. by rewrite bool_decide_eq_true_2 in Hcase.
Qed.

End Pull.

Lemma update_merges_ttls_witness :
  _ttls (update local_ip1 (SharedStore.holding remote_two_ips [])).1 !! ip1
  = Some (Some 50).
Proof.
  refine (proj1 (proj1 (proj2 (proj2 (proj2
    (update_merges_ttls local_ip1 (SharedStore.holding remote_two_ips [])
       SharedStore.server remote_two_ips.1 remote_two_ips.2 _ _)))) _)
    ip1 (Some 50) _).
  - reflexivity.
  - reflexivity.
  - by_evaluation.
  - vm_compute. reflexivity.
Defined.

(** C1, as stated, fails: the local instance knows [ip1] without expiry and
    the stored snapshot knows the same IP with an expiry.  The pull finds no
    new IP and leaves the TTL dict alone, so the remote TTL entry is not in
    the local TTL dict afterwards. *)
Lemma update_skips_ttls_without_new_ip :
  (cache_get SharedStore.server blacklist_key
     (store (SharedStore.holding remote_same_ip []))).1 = Some remote_same_ip /\
  ~ (remote_same_ip.1 ⊆ ips (update local_ip1
                                (SharedStore.holding remote_same_ip [])).1 /\
     forall k v, remote_same_ip.2 !! k = Some v ->
       _ttls (update local_ip1 (SharedStore.holding remote_same_ip [])).1 !! k
       = Some v).
Proof.
  split; [reflexivity|]. intros [_ Httl].
  specialize (Httl ip1 (Some 100) eq_refl). vm_compute in Httl. discriminate Httl.
Qed.

(** ** Convergence of two instances *)

(** C2 fails on the code.  Whatever the cache server does: instance A adds
    [ip1], instance B adds [ip2], each publishes, each pulls; every call
    returns, and afterwards A still knows [ip1] only and B [ip2] only. *)
Theorem convergence_loses_entries :
  forall (B : Type) (csA csB : CacheServer B) (s : B),
  exists a b w,
    run_pair convergence_schedule (init (Some csA)) (init (Some csB))
             (Build_World s []) = Some (a, b, w) /\
    ips a = ({[ip1]} : gset string) /\ ips b = ({[ip2]} : gset string) /\
    (ip2 ∉ ips a) /\ (ip1 ∉ ips b).
Proof.
  intros B csA csB s. unfold convergence_schedule. simpl.
  set (a0 := add (init (Some csA)) ip1 None 0).
  set (b0 := add (init (Some csB)) ip2 None 0).
  destruct (save_returns a0 (Build_World s [])) as [[a1 w1] Ha1].
  rewrite Ha1. pose proof (save_ips _ _ _ Ha1) as Hia1.
  destruct (save_returns b0 w1) as [[b1 w2] Hb1].
  rewrite Hb1. pose proof (save_ips _ _ _ Hb1) as Hib1.
  pose proof (update_ips a1 w2) as Hia2.
  destruct (update a1 w2) as [a2 w3].
  pose proof (update_ips b1 w3) as Hib2.
  destruct (update b1 w3) as [b2 w4].
  exists a2, b2, w4. simpl in *. split; [done|].
  assert (ips a2 = ({[ip1]} : gset string)) as Ea.
  { rewrite Hia2, Hia1. apply leibniz_equiv. set_solver. }
  assert (ips b2 = ({[ip2]} : gset string)) as Eb.
  { rewrite Hib2, Hib1. apply leibniz_equiv. set_solver. }
  rewrite Ea, Eb. repeat split; done.
Qed.

(** The same on the example store: B's publish replaces A's snapshot, A's
    pull takes the TTL entry of [ip2] and leaves the IP out. *)
Example convergence_on_shared_store :
  (fun r => (elements (ips r.1.1), map_to_list (_ttls r.1.1),
             elements (ips r.1.2)))
    <$> run_pair convergence_schedule (init (Some SharedStore.server))
          (init (Some SharedStore.server)) SharedStore.empty
  = Some ([ip1], [(ip1, None); (ip2, None)], [ip2]).
Proof. vm_compute. reflexivity. Qed.

(** No pull and no publish ever changes the IP set. *)
Lemma sync_keeps_ips {B : Type} (o : op) (bl bl' : Blacklist B) w w' r :
  o = OpUpdate \/ o = OpSave ->
  run_op o bl w = Some (bl', w', r) -> ips bl' = ips bl.
Proof.
  intros [-> | ->]; simpl.
  - pose proof (update_ips bl w) as H. destruct (update bl w).
    by intros [= <- _ _].
  - destruct (save bl w) as [[bl1 w1]|] eqn:Hs; [|done].
    intros [= <- _ _]. apply (save_ips bl w (bl1, w1) Hs).
Qed.

(** ** Publishing *)

Section Push.

Context {B : Type}.
Implicit Types (bl : Blacklist B) (w : World B) (cs : CacheServer B).

(** C6.  When the dirty flag is [False] or there is no cache server, [save]
    returns at once: the blacklist, the store and the list of calls made on
    the server are what they were. *)
Theorem save_clean_is_noop bl w :
  _dirty bl = false \/ _cache_server bl = None ->
  save bl w = Some (bl, w) /\
  forall fuel, save_with fuel bl w = Some (bl, w).
Proof.
  intros H. split; [|intros fuel]; by apply save_with_early.
Qed.

End Push.

Lemma save_clean_is_noop_witness :
  save (init (Some SharedStore.server)) SharedStore.empty
  = Some (init (Some SharedStore.server), SharedStore.empty).
Proof.
  apply (save_clean_is_noop (init (Some SharedStore.server)) SharedStore.empty).
  left. reflexivity.
Defined.

(** ** Local operations: [add], [remove], membership *)

Section Local.

Context {B : Type}.
Implicit Types (bl : Blacklist B) (w : World B).

Lemma remove_absent bl elmt :
  elmt ∉ ips bl -> remove bl elmt = (bl, Raise (KeyError elmt)).
Proof. intros Hn. unfold remove. by rewrite decide_False. Qed.

Lemma remove_present bl elmt v :
  elmt ∈ ips bl -> _ttls bl !! elmt = Some v ->
  remove bl elmt =
  (set_dirty (set_ttls (set_ips bl (ips bl ∖ {[elmt]}))
                       (delete elmt (_ttls bl))) true, Return tt).
Proof.
  intros Hin Hv. unfold remove. rewrite decide_True by done. simpl.
  by rewrite Hv.
Qed.

Lemma remove_returns_inv bl elmt bl' :
  remove bl elmt = (bl', Return tt) ->
  elmt ∈ ips bl /\ is_Some (_ttls bl !! elmt).
Proof.
  unfold remove. destruct (decide (elmt ∈ ips bl)) as [Hin|Hn]; [|done].
  simpl. destruct (_ttls bl !! elmt) as [v|]; [eauto|done].
Qed.

Lemma contains_absent bl elmt now :
  elmt ∉ ips bl -> contains bl elmt now = (bl, Return false).
Proof. intros Hn. unfold contains. by rewrite bool_decide_eq_false_2. Qed.

Lemma contains_forever bl elmt now :
  elmt ∈ ips bl -> _ttls bl !! elmt = Some None ->
  contains bl elmt now = (bl, Return true).
Proof.
  intros Hin Hv. unfold contains. rewrite bool_decide_eq_true_2 by done.
  by rewrite Hv.
Qed.

Lemma contains_live bl elmt now t :
  elmt ∈ ips bl -> _ttls bl !! elmt = Some (Some t) -> now < t ->
  contains bl elmt now = (bl, Return true).
Proof.
  intros Hin Hv Hlt. unfold contains. rewrite bool_decide_eq_true_2 by done.
  rewrite Hv. by rewrite (proj2 (Z.leb_gt (t - now) 0)) by lia.
Qed.

Lemma contains_expired bl elmt now t :
  elmt ∈ ips bl -> _ttls bl !! elmt = Some (Some t) -> t <= now ->
  contains bl elmt now =
  (set_dirty (set_ttls (set_ips bl (ips bl ∖ {[elmt]}))
                       (delete elmt (_ttls bl))) true, Return false).
Proof.
  intros Hin Hv Hle. unfold contains. rewrite bool_decide_eq_true_2 by done.
  rewrite Hv. rewrite (proj2 (Z.leb_le (t - now) 0)) by lia.
  by rewrite (remove_present bl elmt (Some t)).
Qed.

(** C3.  The membership check returns [True] exactly when the IP is in the
    set and its expiry is [None] or later than the clock reading, and then
    the blacklist is left as it was.  When the IP is in the set with an
    expiry that is not later than the clock reading, the check returns
    [False], the IP is taken out of the set and out of the TTL dict, and
    a check made next, at any time, returns [False] again. *)
Theorem contains_spec bl elmt now :
  ((contains bl elmt now).2 = Return true <->
     elmt ∈ ips bl /\
     (_ttls bl !! elmt = Some None \/
      exists t, _ttls bl !! elmt = Some (Some t) /\ now < t)) /\
  ((contains bl elmt now).2 = Return true -> (contains bl elmt now).1 = bl) /\
  (forall t,
     elmt ∈ ips bl -> _ttls bl !! elmt = Some (Some t) -> t <= now ->
     (contains bl elmt now).2 = Return false /\
     ips (contains bl elmt now).1 = ips bl ∖ {[elmt]} /\
     _ttls (contains bl elmt now).1 = delete elmt (_ttls bl) /\
     (elmt ∉ ips (contains bl elmt now).1) /\
     _ttls (contains bl elmt now).1 !! elmt = None /\
     forall now',
       contains (contains bl elmt now).1 elmt now'
       = ((contains bl elmt now).1, Return false)).
Proof.
  split; [|split].
  - split.
    + intros Hret. destruct (decide (elmt ∈ ips bl)) as [Hin|Hn].
      2:{ rewrite contains_absent in Hret by done. discriminate Hret. }
      split; [done|].
      destruct (_ttls bl !! elmt) as [[t|]|] eqn:Hv.
      * destruct (Z.le_gt_cases t now) as [Hle|Hgt].
        -- rewrite (contains_expired bl elmt now t) in Hret by done.
           discriminate Hret.
        -- right. exists t. split; [done|lia].
      * by left.
      * unfold contains in Hret. rewrite bool_decide_eq_true_2 in Hret by done.
        rewrite Hv in Hret. discriminate Hret.
    + intros [Hin [Hv|(t & Hv & Hlt)]].
      * by rewrite contains_forever.
      * by rewrite (contains_live bl elmt now t).
  - intros Hret. destruct (decide (elmt ∈ ips bl)) as [Hin|Hn].
    2:{ by rewrite contains_absent. }
    destruct (_ttls bl !! elmt) as [[t|]|] eqn:Hv.
    + destruct (Z.le_gt_cases t now) as [Hle|Hgt].
      * rewrite (contains_expired bl elmt now t) in Hret by done.
        discriminate Hret.
      * rewrite (contains_live bl elmt now t); [done..|lia].
    + by rewrite contains_forever.
    + unfold contains. rewrite bool_decide_eq_true_2 by done. by rewrite Hv.
  - intros t Hin Hv Hle. rewrite (contains_expired bl elmt now t) by done.
    simpl. split; [done|]. split; [done|]. split; [done|].
    assert (elmt ∉ ips bl ∖ {[elmt]}) as Hgone.
    { intros [_ Hne]%elem_of_difference. apply Hne. by apply elem_of_singleton. }
    split; [done|]. split; [apply lookup_delete_eq|].
    intros now'. by apply contains_absent.
Qed.

(** C9.  [remove] of an IP that is not in the set raises [KeyError] and
    leaves the blacklist as it was.  On a blacklist whose IPs all have a
    TTL entry, [remove] returns exactly when the IP is in the set, and then
    the IP is gone from the set and from the TTL dict and the dirty flag is
    [True].  A second [remove] of the same IP raises [KeyError]. *)
Theorem remove_spec bl elmt :
  (elmt ∉ ips bl -> remove bl elmt = (bl, Raise (KeyError elmt))) /\
  (ttls_cover bl -> elmt ∈ ips bl ->
     (remove bl elmt).2 = Return tt /\
     ips (remove bl elmt).1 = ips bl ∖ {[elmt]} /\
     _ttls (remove bl elmt).1 = delete elmt (_ttls bl) /\
     _dirty (remove bl elmt).1 = true /\
     _cache_server (remove bl elmt).1 = _cache_server bl) /\
  (ttls_cover bl -> ((remove bl elmt).2 = Return tt <-> elmt ∈ ips bl)) /\
  (forall bl', remove bl elmt = (bl', Return tt) ->
     remove bl' elmt = (bl', Raise (KeyError elmt))).
Proof.
  split; [apply remove_absent|]. split; [|split].
  - intros Hcov Hin.
    assert (is_Some (_ttls bl !! elmt)) as [v Hv].
    { apply elem_of_dom. by apply Hcov. }
    by rewrite (remove_present bl elmt v).
  - intros Hcov. split.
    + intros Hret. destruct (remove bl elmt) as [bl' r] eqn:Hrm.
      simpl in Hret. subst r. by destruct (remove_returns_inv _ _ _ Hrm).
    + intros Hin.
      assert (is_Some (_ttls bl !! elmt)) as [v Hv].
      { apply elem_of_dom. by apply Hcov. }
      by rewrite (remove_present bl elmt v).
  - intros bl' Hrm. destruct (remove_returns_inv _ _ _ Hrm) as [Hin [v Hv]].
    rewrite (remove_present bl elmt v) in Hrm by done.
    inversion Hrm as [Hbl']. apply remove_absent. simpl.
    intros [_ Hne]%elem_of_difference. apply Hne. by apply elem_of_singleton.
Qed.

End Local.

Lemma contains_spec_witness :
  (contains expiring_ip1 ip1 7).2 = Return false /\
  forall now', contains (contains expiring_ip1 ip1 7).1 ip1 now'
               = ((contains expiring_ip1 ip1 7).1, Return false).
Proof.
  destruct (proj2 (proj2 (contains_spec expiring_ip1 ip1 7)) 5)
    as (Hret & _ & _ & _ & _ & Hnext).
  - by_evaluation.
  - vm_compute. reflexivity.
  - lia.
  - split; [exact Hret|exact Hnext].
Defined.

Lemma remove_spec_witness :
  (remove expiring_ip1 ip1).2 = Return tt /\
  (remove expiring_ip1 ip2).2 = Raise (KeyError ip2).
Proof.
  destruct (remove_spec expiring_ip1 ip1) as (_ & Hpresent & _ & _).
  destruct (remove_spec expiring_ip1 ip2) as (Habsent & _ & _ & _).
  split.
  - destruct Hpresent as [Hret _]; [by_evaluation..|exact Hret].
  - rewrite Habsent; [reflexivity|by_evaluation].
Defined.

(** ** The invariant between the IP set and the TTL dict *)

Section Invariant.

Context {B : Type}.
Implicit Types (bl : Blacklist B) (w : World B).

Lemma init_cover cs : ttls_cover (init (B:=B) cs).
Proof. unfold ttls_cover. simpl. apply empty_subseteq. Qed.

Lemma add_cover bl elmt ttl now : ttls_cover bl -> ttls_cover (add bl elmt ttl now).
Proof.
  unfold ttls_cover. intros Hcov x. destruct ttl; simpl;
    rewrite dom_insert_L, !elem_of_union, !elem_of_singleton;
    intros [Hx|Hx]; auto.
Qed.

Lemma remove_cover bl elmt : ttls_cover bl -> ttls_cover (remove bl elmt).1.
Proof.
  unfold ttls_cover, remove. intros Hcov.
  destruct (decide (elmt ∈ ips bl)) as [Hin|Hn]; [|done]. simpl.
  destruct (_ttls bl !! elmt) as [v|] eqn:Hv; simpl.
  - rewrite dom_delete_L. intros x [Hx Hne]%elem_of_difference.
    apply elem_of_difference. auto.
  - intros x [Hx _]%elem_of_difference. auto.
Qed.

Lemma contains_cover bl elmt now :
  ttls_cover bl -> ttls_cover (contains bl elmt now).1.
Proof.
  intros Hcov. unfold contains.
  destruct (bool_decide (elmt ∈ ips bl)); [|done].
  destruct (_ttls bl !! elmt) as [[t|]|]; [|done..].
  destruct (t - now <=? 0); [|done].
  pose proof (remove_cover bl elmt Hcov) as Hrm.
  by destruct (remove bl elmt) as [bl1 []].
Qed.

Lemma update_cover bl w : ttls_cover bl -> ttls_cover (update bl w).1.
Proof.
  unfold ttls_cover. intros Hcov x. rewrite update_ips. intros Hx.
  apply elem_of_dom, update_ttls_keep, elem_of_dom. auto.
Qed.

Lemma save_cover bl w r : ttls_cover bl -> save bl w = Some r -> ttls_cover r.1.
Proof.
  intros Hcov. unfold save, save_with. destruct (_cache_server bl) as [cs|].
  - destruct (negb (_dirty bl)); [by intros [= <-]|].
    apply (save_loop_preserves ttls_cover); [| |done].
    + intros b w0. apply update_cover.
    + done.
  - by intros [= <-].
Qed.

Lemma run_op_returns (o : op) bl w : is_Some (run_op o bl w).
Proof.
  destruct o as [e ttl now|e|e now| |]; simpl; eauto.
  - destruct (remove bl e). eauto.
  - destruct (contains bl e now). eauto.
  - destruct (update bl w). eauto.
  - destruct (save_returns bl w) as [[bl1 w1] ->]. eauto.
Qed.

Lemma run_op_cover (o : op) bl w bl' w' r :
  ttls_cover bl -> run_op o bl w = Some (bl', w', r) -> ttls_cover bl'.
Proof.
  intros Hcov. destruct o as [e ttl now|e|e now| |]; simpl.
  - intros [= <- _ _]. by apply add_cover.
  - pose proof (remove_cover bl e Hcov) as H.
    destruct (remove bl e). by intros [= <- _ _].
  - pose proof (contains_cover bl e now Hcov) as H.
    destruct (contains bl e now). by intros [= <- _ _].
  - pose proof (update_cover bl w Hcov) as H.
    destruct (update bl w). by intros [= <- _ _].
  - destruct (save bl w) as [[bl1 w1]|] eqn:Hs; [|done].
    intros [= <- _ _]. apply (save_cover bl w (bl1, w1) Hcov Hs).
Qed.

Lemma contains_no_KeyError bl elmt now :
  ttls_cover bl -> exists b, (contains bl elmt now).2 = Return b.
Proof.
  intros Hcov. destruct (decide (elmt ∈ ips bl)) as [Hin|Hn].
  - assert (is_Some (_ttls bl !! elmt)) as [[t|] Hv].
    { apply elem_of_dom. by apply Hcov. }
    + destruct (Z.le_gt_cases t now).
      * rewrite (contains_expired bl elmt now t) by done. eauto.
      * rewrite (contains_live bl elmt now t) by (done || lia). eauto.
    + rewrite contains_forever by done. eauto.
  - rewrite contains_absent by done. eauto.
Qed.

(** C10.  A new blacklist has a TTL entry for each of its IPs (it has
    none), and [add], [remove], [update], [save] and the membership check
    each keep it so, as does any sequence of them; on such a blacklist the
    membership check returns a boolean, it never raises [KeyError]. *)
Theorem ttls_cover_invariant :
  (forall cs : option (CacheServer B), ttls_cover (init cs)) /\
  (forall (o : op) bl w bl' w' r,
     ttls_cover bl -> run_op o bl w = Some (bl', w', r) -> ttls_cover bl') /\
  (forall (os : list op) bl w bl' w',
     ttls_cover bl -> run_ops os bl w = Some (bl', w') -> ttls_cover bl') /\
  (forall bl elmt now,
     ttls_cover bl -> exists b, (contains bl elmt now).2 = Return b).
Proof.
  split; [apply init_cover|]. split; [apply run_op_cover|].
  split; [|apply contains_no_KeyError].
  induction os as [|o os IH]; intros bl w bl' w' Hcov Hrun; simpl in Hrun.
  - by inversion Hrun; subst.
  - destruct (run_op o bl w) as [[[bl1 w1] r]|] eqn:Hop; [|done].
    eapply IH; [|exact Hrun]. eapply run_op_cover; eauto.
Qed.

End Invariant.

Lemma ttls_cover_invariant_witness :
  ttls_cover (add local_ip1 ip2 (Some 1) 0) /\
  exists b, (contains local_ip1 ip1 5).2 = Return b.
Proof.
  destruct (@ttls_cover_invariant SharedStore.t) as (_ & Hop & _ & Hcheck).
  split.
  - apply (Hop (OpAdd ip2 (Some 1) 0) local_ip1 SharedStore.empty
               _ SharedStore.empty (Return VNone)).
    + by_evaluation.
    + reflexivity.
  - apply Hcheck. by_evaluation.
Defined.

(** ** The dirty flag and the retry loop *)

Section Dirty.

Context {B : Type}.
Implicit Types (bl : Blacklist B) (w : World B) (cs : CacheServer B).

(** The calls of a whole [save] on a dirty blacklist with a cache server. *)
Lemma save_with_trace fuel bl w cs :
  (10 <= fuel)%nat -> _cache_server bl = Some cs -> _dirty bl = true ->
  exists bl' w' rounds final,
    save_with fuel bl w = Some (bl', w') /\
    calls w' = calls w ++ concat (map round_calls rounds) ++ final_calls final /\
    match final with
    | Some data =>
        (length rounds < 10)%nat /\
        _dirty bl' = false /\ data = (ips bl', _ttls bl')
    | None => length rounds = 10%nat /\ _dirty bl' = true
    end.
Proof.
  intros Hfuel Hcs Hd.
  destruct (save_loop_trace fuel 0 cs bl w)
    as (bl' & w' & rounds & final & Hrun & Htrace & Hfinal);
    [lia|simpl; lia|done|].
  exists bl', w', rounds, final. unfold save_with. rewrite Hcs, Hd. simpl.
  split; [done|]. split; [done|].
  destruct final as [data|].
  - destruct Hfinal as (? & ? & ?). split; [lia|done].
  - destruct Hfinal as [? ?]. split; [lia|congruence].
Qed.

Lemma rounds_no_accepted_cas (rounds : list (snapshot * option snapshot)) :
  forallb (fun e => negb (is_accepted_cas e)) (concat (map round_calls rounds))
  = true.
Proof. induction rounds as [|r rounds IH]; simpl; done. Qed.

Lemma rounds_cas_count (rounds : list (snapshot * option snapshot)) :
  length (List.filter is_cas (concat (map round_calls rounds))) = length rounds.
Proof.
  induction rounds as [|r rounds IH]; [done|]. simpl. by rewrite IH.
Qed.

(** C5.  On a dirty blacklist with a cache server, [save] returns (with any
    fuel of ten or more, to the same result) and the calls it makes on the
    server are: some rounds, each a refused [cas] followed by the [get] of
    a pull, then either one accepted [cas], which ends the loop before the
    tenth refusal and clears the dirty flag, or nothing more after exactly
    ten refused [cas]; so [cas] is called at most ten times. *)
Theorem save_retry_protocol fuel bl w cs :
  (10 <= fuel)%nat -> _cache_server bl = Some cs -> _dirty bl = true ->
  exists bl' w' rounds final,
    save_with fuel bl w = Some (bl', w') /\
    save bl w = Some (bl', w') /\
    calls w' = calls w ++ concat (map round_calls rounds) ++ final_calls final /\
    (length (List.filter is_cas
               (concat (map round_calls rounds) ++ final_calls final))
       <= 10)%nat /\
    match final with
    | Some data =>
        (length rounds < 10)%nat /\
        _dirty bl' = false /\ data = (ips bl', _ttls bl')
    | None => length rounds = 10%nat /\ _dirty bl' = true
    end.
Proof.
  intros Hfuel Hcs Hd.
  destruct (save_with_trace fuel bl w cs Hfuel Hcs Hd)
    as (bl' & w' & rounds & final & Hrun & Htrace & Hfinal).
  exists bl', w', rounds, final. split; [done|].
  split; [by rewrite <- (save_with_fuel fuel)|]. split; [done|].
  split; [|done].
  rewrite List.filter_app, length_app, rounds_cas_count.
  destruct final as [data|]; simpl; lia.
Qed.

(** C4.  [add], a [remove] that returns and a membership check that
    answers [False] for a listed IP (the expiry removal) leave the dirty
    flag [True].  No operation other than [save] turns a [True] flag into
    [False], and when [save] does, the last call it made is an accepted
    [cas] of the local snapshot.  A [save] none of whose calls is an
    accepted [cas] leaves the flag as it was. *)
Theorem dirty_flag_protocol (o : op) bl w bl' w' r :
  run_op o bl w = Some (bl', w', r) ->
  match o with
  | OpAdd _ _ _ => _dirty bl' = true
  | OpRemove _ => r = Return VNone -> _dirty bl' = true
  | OpContains elmt _ =>
      (r = Return (VBool false) -> elmt ∈ ips bl -> _dirty bl' = true) /\
      (bl' <> bl -> _dirty bl' = true)
  | OpUpdate | OpSave => True
  end /\
  exists new,
    calls w' = calls w ++ new /\
    (_dirty bl = true -> _dirty bl' = false ->
       o = OpSave /\
       last new = Some (EvCas blacklist_key (ips bl', _ttls bl') true)) /\
    (forallb (fun e => negb (is_accepted_cas e)) new = true ->
       _dirty bl = true -> _dirty bl' = true).
Proof.
  destruct o as [e ttl now|e|e now| |]; simpl.
  - intros [= <- <- _]. split; [done|]. exists []. rewrite app_nil_r.
    split; [done|]. split; [simpl; congruence|done].
  - destruct (remove bl e) as [bl1 r1] eqn:Hrm. intros [= <- <- <-].
    assert (_dirty bl = true -> _dirty bl1 = true) as Hkeep.
    { revert Hrm. unfold remove. destruct (decide (e ∈ ips bl)); simpl.
      - destruct (_ttls bl !! e); by intros [= <- _].
      - by intros [= <- _]. }
    split.
    + destruct r1 as [[]|]; simpl; [|done]. intros _.
      destruct (remove_returns_inv _ _ _ Hrm) as [Hin [v Hv]].
      rewrite (remove_present bl e v) in Hrm by done. by inversion Hrm.
    + exists []. rewrite app_nil_r. split; [done|].
      split; [intros Hd Hc; rewrite Hkeep in Hc; done|auto].
  - destruct (contains bl e now) as [bl1 r1] eqn:Hc. intros [= <- <- <-].
    assert (bl1 = bl \/ _dirty bl1 = true) as Hcase.
    { revert Hc. unfold contains. destruct (bool_decide (e ∈ ips bl)).
      - destruct (_ttls bl !! e) as [[t|]|] eqn:Hv;
          [|intros [= <- _]; by left..].
        destruct (t - now <=? 0); [|intros [= <- _]; by left].
        unfold remove. destruct (decide (e ∈ ips bl)); simpl.
        + rewrite Hv. intros [= <- _]. by right.
        + intros [= <- _]. by left.
      - intros [= <- _]. by left. }
    split; [split|].
    + intros Hr Hin. destruct r1 as [[]|]; simpl in Hr; try done.
      revert Hc. unfold contains. rewrite bool_decide_eq_true_2 by done.
      destruct (_ttls bl !! e) as [[t|]|] eqn:Hv; [|done..].
      destruct (t - now <=? 0); [|done].
      rewrite (remove_present bl e (Some t)) by done. by intros [= <-].
    + intros Hne. by destruct Hcase.
    + exists []. rewrite app_nil_r. split; [done|].
      split; [intros Hd Hf; destruct Hcase; congruence|].
      intros _ Hd. destruct Hcase; congruence.
  - pose proof (update_dirty bl w) as Hd.
    destruct (_cache_server bl) as [cs|] eqn:Hcs.
    + destruct (update_cases bl w cs Hcs) as (res & Hcalls & _ & _).
      destruct (update bl w) as [bl1 w1]. intros [= <- <- _].
      split; [done|]. simpl in *. exists [EvGet blacklist_key res].
      split; [done|]. split; [congruence|congruence].
    + unfold update in *. rewrite Hcs in *. intros [= <- <- _].
      split; [done|]. exists []. rewrite app_nil_r.
      split; [done|]. split; [congruence|done].
  - destruct (save bl w) as [[bl1 w1]|] eqn:Hs; [|done].
    intros [= <- <- _]. split; [done|].
    destruct (_cache_server bl) as [cs|] eqn:Hcs;
      [destruct (_dirty bl) eqn:Hd|].
    + destruct (save_with_trace 10 bl w cs)
        as (bl2 & w2 & rounds & final & Hrun & Htrace & Hfinal); [done..|].
      unfold save in Hs. rewrite Hrun in Hs. inversion Hs; subst bl2 w2.
      exists (concat (map round_calls rounds) ++ final_calls final).
      split; [done|]. destruct final as [data|]; simpl.
      * destruct Hfinal as (_ & Hclr & ->). split.
        -- intros _ _. split; [done|]. by rewrite last_snoc.
        -- rewrite forallb_app. simpl. rewrite andb_false_r. done.
      * destruct Hfinal as [_ Hkeep]. split; [congruence|done].
    + unfold save in Hs. rewrite save_with_early in Hs by (by left). inversion Hs; subst. exists []. rewrite app_nil_r.
      split; [done|]. split; [congruence|congruence].
    + unfold save in Hs. rewrite save_with_early in Hs by (by right). inversion Hs; subst. exists []. rewrite app_nil_r.
      split; [done|]. split; [congruence|done].
Qed.

End Dirty.

Lemma save_retry_protocol_witness :
  exists bl' w', save local_ip1 contended = Some (bl', w').
Proof.
  destruct (save_retry_protocol 10 local_ip1 contended SharedStore.server)
    as (bl' & w' & _ & _ & _ & Hsave & _).
  - lia.
  - reflexivity.
  - reflexivity.
  - exists bl', w'. exact Hsave.
Defined.

Lemma dirty_flag_protocol_witness :
  exists bl' w' r,
    run_op OpSave local_ip1 contended = Some (bl', w', r) /\ _dirty bl' = true.
Proof.
  destruct (run_op_returns OpSave local_ip1 contended) as [[[bl' w'] r] Hrun].
  exists bl', w', r. split; [exact Hrun|].
  destruct (dirty_flag_protocol _ _ _ _ _ _ Hrun)
    as [_ (new & Hcalls & _ & Hkeep)].
  apply Hkeep; [|reflexivity].
  assert ((fun x => forallb (fun e => negb (is_accepted_cas e)) (calls x.1.2))
            <$> run_op OpSave local_ip1 contended = Some true) as Hall.
  { vm_compute. reflexivity. }
  rewrite Hrun in Hall. simpl in Hall. injection Hall as Hall.
  rewrite Hcalls in Hall. exact Hall.
Defined.

(** The contended store refuses ten times: [save] gives up after ten [cas]
    and ten [get], and the dirty flag is still [True]. *)
Example save_gives_up :
  (fun r => (_dirty r.1, length (calls r.2),
             length (List.filter is_cas (calls r.2))))
    <$> save local_ip1 contended
  = Some (true, 20%nat, 10%nat).
Proof. vm_compute. reflexivity. Qed.

(** Three refusals, then nobody interferes: four [cas], three [get], and
    the dirty flag is cleared. *)
Example save_after_three_refusals :
  (fun r => (_dirty r.1, length (calls r.2),
             length (List.filter is_cas (calls r.2))))
    <$> save local_ip1
          (SharedStore.holding remote_new_ip
             (replicate 3 (Some remote_new_ip)))
  = Some (false, 7%nat, 4%nat).
Proof. vm_compute. reflexivity. Qed.

(** ** An IP added without expiry *)

Section NoExpiry.

Context {B : Type}.
Implicit Types (bl : Blacklist B) (w : World B) (cs : CacheServer B).

Lemma add_listed_forever bl elmt now : listed_forever elmt (add bl elmt None now).
Proof.
  split; simpl.
  - apply elem_of_union_r. by apply elem_of_singleton.
  - apply lookup_insert_eq.
Qed.

Lemma add_other_listed_forever bl elmt e ttl now :
  listed_forever elmt bl -> keeps_entry elmt (OpAdd e ttl now) = true ->
  listed_forever elmt (add bl e ttl now).
Proof.
  intros [Hin Hv] Hk. split.
  - destruct ttl; simpl; by apply elem_of_union_l.
  - destruct ttl as [d|]; simpl in *.
    + apply negb_true_iff, bool_decide_eq_false in Hk.
      by rewrite lookup_insert_ne.
    + destruct (decide (e = elmt)) as [->|Hne].
      * apply lookup_insert_eq.
      * by rewrite lookup_insert_ne.
Qed.

Lemma remove_other_listed_forever bl elmt e :
  e <> elmt -> listed_forever elmt bl -> listed_forever elmt (remove bl e).1.
Proof.
  intros Hne [Hin Hv]. unfold remove.
  destruct (decide (e ∈ ips bl)); [|done]. simpl.
  assert (elmt ∈ ips bl ∖ {[e]}) as Hin'.
  { apply elem_of_difference. split; [done|].
    intros Heq%elem_of_singleton. by apply Hne. }
  destruct (_ttls bl !! e); split; simpl; try done.
  by rewrite lookup_delete_ne.
Qed.

Lemma contains_listed_forever bl elmt e now :
  listed_forever elmt bl -> listed_forever elmt (contains bl e now).1.
Proof.
  intros Hl. destruct (decide (e = elmt)) as [->|Hne].
  - destruct Hl as [Hin Hv]. by rewrite contains_forever.
  - pose proof (remove_other_listed_forever bl elmt e Hne Hl) as Hrm.
    unfold contains. destruct (bool_decide (e ∈ ips bl)); [|done].
    destruct (_ttls bl !! e) as [[t|]|]; [|done..].
    destruct (t - now <=? 0); [|done].
    by destruct (remove bl e) as [bl1 []].
Qed.

(** A pull keeps a [None] expiry unless the fetched snapshot carries an
    expiry time for that IP. *)
Lemma update_listed_forever bl w elmt :
  exists new,
    calls (update bl w).2 = calls w ++ new /\
    (no_expiry_fetched elmt new -> listed_forever elmt bl ->
     listed_forever elmt (update bl w).1).
Proof.
  destruct (_cache_server bl) as [cs|] eqn:Hcs.
  - destruct (update_cases bl w cs Hcs) as (res & Hcalls & _ & Hcase).
    exists [EvGet blacklist_key res]. split; [done|].
    intros Hnone [Hin Hv]. unfold no_expiry_fetched in Hnone.
    apply Forall_inv in Hnone. simpl in Hnone.
    destruct res as [[rips rttls]|]; [|by rewrite Hcase].
    destruct (issuperset (ips bl) rips); rewrite Hcase; [done|].
    split; [done|]. simpl.
    destruct (rttls !! elmt) as [[t|]|] eqn:Hr;
      [try rewrite Hr in Hnone; discriminate Hnone| |].
    + by apply dict_update_lookup_remote.
    + by rewrite dict_update_lookup_local.
  - exists []. unfold update. rewrite Hcs. simpl. by rewrite app_nil_r.
Qed.

Lemma save_loop_listed_forever elmt fuel : forall tries cs bl w r,
  save_loop fuel tries cs bl w = Some r ->
  exists new,
    calls r.2 = calls w ++ new /\
    (no_expiry_fetched elmt new -> listed_forever elmt bl ->
     listed_forever elmt r.1).
Proof.
  induction fuel as [|fuel IH]; intros tries cs bl w r Hrun.
  - simpl in Hrun. destruct (tries <? 10); [done|]. inversion Hrun; subst.
    exists []. by rewrite app_nil_r.
  - destruct (Z.lt_ge_cases tries 10) as [Hlt|Hge].
    + rewrite save_loop_step in Hrun by done.
      pose proof (server_cas_calls cs blacklist_key (ips bl, _ttls bl) w) as Hc.
      destruct (server_cas cs blacklist_key (ips bl, _ttls bl) w) as [ok w1].
      simpl in Hc. destruct ok.
      * inversion Hrun; subst. eexists. split; [exact Hc|]. by intros _ [? ?].
      * destruct (update_listed_forever bl w1 elmt) as (n1 & Hc1 & Hk1).
        destruct (IH _ _ _ _ _ Hrun) as (n2 & Hc2 & Hk2).
        exists ([EvCas blacklist_key (ips bl, _ttls bl) false] ++ n1 ++ n2).
        split; [by rewrite Hc2, Hc1, Hc, <- !app_assoc|].
        intros Hnone Hl. unfold no_expiry_fetched in *.
        apply Forall_app in Hnone as [_ Hnone].
        apply Forall_app in Hnone as [H1 H2]. auto.
    + rewrite save_loop_exit in Hrun by done. inversion Hrun; subst.
      exists []. by rewrite app_nil_r.
Qed.

Lemma run_op_listed_forever elmt (o : op) bl w bl' w' r :
  keeps_entry elmt o = true ->
  run_op o bl w = Some (bl', w', r) ->
  exists new,
    calls w' = calls w ++ new /\
    (no_expiry_fetched elmt new -> listed_forever elmt bl ->
     listed_forever elmt bl').
Proof.
  intros Hk. destruct o as [e ttl now|e|e now| |]; simpl.
  - intros [= <- <- _]. exists []. rewrite app_nil_r. split; [done|].
    intros _ Hl. by apply add_other_listed_forever.
  - pose proof (remove_other_listed_forever bl elmt e) as Hrm.
    destruct (remove bl e) as [bl1 r1]. intros [= <- <- _].
    exists []. rewrite app_nil_r. split; [done|]. intros _ Hl. apply Hrm; [|done].
    simpl in Hk. by apply negb_true_iff, bool_decide_eq_false in Hk.
  - pose proof (contains_listed_forever bl elmt e now) as Hc.
    destruct (contains bl e now) as [bl1 r1]. intros [= <- <- _].
    exists []. rewrite app_nil_r. split; [done|]. intros _ Hl. by apply Hc.
  - destruct (update_listed_forever bl w elmt) as (new & Hc & Hl).
    destruct (update bl w) as [bl1 w1]. intros [= <- <- _]. by exists new.
  - destruct (save bl w) as [[bl1 w1]|] eqn:Hs; [|done]. intros [= <- <- _].
    unfold save, save_with in Hs. destruct (_cache_server bl) as [cs|].
    + destruct (negb (_dirty bl)).
      * inversion Hs; subst. exists []. by rewrite app_nil_r.
      * apply (save_loop_listed_forever elmt) in Hs. exact Hs.
    + inversion Hs; subst. exists []. by rewrite app_nil_r.
Qed.

Lemma run_ops_listed_forever elmt (os : list op) : forall bl w,
  Forall (fun o => keeps_entry elmt o = true) os ->
  exists bl' w' new,
    run_ops os bl w = Some (bl', w') /\
    calls w' = calls w ++ new /\
    (no_expiry_fetched elmt new -> listed_forever elmt bl ->
     listed_forever elmt bl').
Proof.
  induction os as [|o os IH]; intros bl w Hall.
  - exists bl, w, []. simpl. by rewrite app_nil_r.
  - apply Forall_cons in Hall as [Ho Hos].
    destruct (run_op_returns o bl w) as [[[bl1 w1] r] Hop].
    destruct (run_op_listed_forever elmt o bl w bl1 w1 r Ho Hop)
      as (n1 & Hc1 & Hk1).
    destruct (IH bl1 w1 Hos) as (bl' & w' & n2 & Hrun & Hc2 & Hk2).
    exists bl', w', (n1 ++ n2). simpl. rewrite Hop.
    split; [done|]. split; [by rewrite Hc2, Hc1, <- app_assoc|].
    intros Hnone Hl. unfold no_expiry_fetched in *.
    apply Forall_app in Hnone as [H1 H2]. auto.
Qed.

Lemma no_expiry_fetched_check elmt (new : list event) :
  forallb (fun e => bool_decide (fetched_expiry elmt e = None)) new = true ->
  no_expiry_fetched elmt new.
Proof.
  unfold no_expiry_fetched. induction new as [|e new IH]; simpl; [done|].
  intros [He Hnew]%andb_true_iff. constructor; [|by apply IH].
  by apply bool_decide_eq_true in He.
Qed.

(** C7, as amended.  After [add(ip)] without TTL, run any operations other
    than [remove(ip)] and [add(ip, ttl)] with a TTL: they all return, and if
    none of the snapshots they fetched from the cache server carries an
    expiry time for [ip], a membership check for [ip], at any clock
    reading, returns [True] and changes nothing. *)
Theorem none_expiry_stays elmt bl w now0 (os : list op) :
  Forall (fun o => keeps_entry elmt o = true) os ->
  exists bl' w' new,
    run_ops os (add bl elmt None now0) w = Some (bl', w') /\
    calls w' = calls w ++ new /\
    (no_expiry_fetched elmt new ->
     forall now, contains bl' elmt now = (bl', Return true)).
Proof.
  intros Hall.
  destruct (run_ops_listed_forever elmt os (add bl elmt None now0) w Hall)
    as (bl' & w' & new & Hrun & Hcalls & Hkeep).
  exists bl', w', new. split; [done|]. split; [done|].
  intros Hnone now. destruct Hkeep as [Hin Hv]; [done|apply add_listed_forever|].
  by apply contains_forever.
Qed.

End NoExpiry.

Lemma none_expiry_stays_witness :
  exists bl' w',
    run_ops busy_caller (add (init (Some SharedStore.server)) ip1 None 0)
            contended = Some (bl', w') /\
    contains bl' ip1 3000 = (bl', Return true).
Proof.
  destruct (none_expiry_stays ip1 (init (Some SharedStore.server)) contended 0
              busy_caller) as (bl' & w' & new & Hrun & Hcalls & Hcheck).
  - unfold busy_caller. repeat constructor.
  - exists bl', w'. split; [exact Hrun|]. apply Hcheck.
    apply no_expiry_fetched_check.
    assert ((fun x => forallb
                        (fun e => bool_decide (fetched_expiry ip1 e = None))
                        (calls x.2))
              <$> run_ops busy_caller
                    (add (init (Some SharedStore.server)) ip1 None 0) contended
            = Some true) as Hall.
    { vm_compute. reflexivity. }
    rewrite Hrun in Hall. simpl in Hall. injection Hall as Hall.
    rewrite Hcalls in Hall. exact Hall.
Defined.

(** C7, as stated, fails: [ip1] is added without TTL, then a pull fetches a
    snapshot that lists [ip1] until time 50 together with a new IP.  No
    [remove] was called, and the membership check at time 100 returns
    [False]. *)
Lemma none_expiry_lost_by_pull :
  (fun r => (contains r.1 ip1 100).2)
    <$> run_ops [OpUpdate] (add (init (Some SharedStore.server)) ip1 None 0)
                (SharedStore.holding remote_two_ips [])
  = Some (Return false).
Proof. vm_compute. reflexivity. Qed.

(** ** Further properties of the local operations *)

Section LocalRoundTrips.

Context {B : Type}.
Implicit Types (bl : Blacklist B) (w : World B).

Lemma Blacklist_eq bl1 bl2 :
  _ttls bl1 = _ttls bl2 -> _cache_server bl1 = _cache_server bl2 ->
  ips bl1 = ips bl2 -> _dirty bl1 = _dirty bl2 -> bl1 = bl2.
Proof. destruct bl1, bl2. simpl. by intros -> -> -> ->. Qed.

Lemma add_ips bl elmt ttl now : ips (add bl elmt ttl now) = ips bl ∪ {[elmt]}.
Proof. by destruct ttl. Qed.

Lemma add_ttls bl elmt ttl now :
  _ttls (add bl elmt ttl now)
  = <[elmt := (fun d => now + d) <$> ttl]> (_ttls bl).
Proof. by destruct ttl. Qed.


(** X2.  Adding an IP again replaces what the first [add] stored: the
    blacklist after the two calls is the one after the second call alone,
    whatever the two TTLs and clock readings. *)
Theorem add_twice_last_wins bl elmt ttl1 now1 ttl2 now2 :
  add (add bl elmt ttl1 now1) elmt ttl2 now2 = add bl elmt ttl2 now2.
Proof.
  apply Blacklist_eq.
  - rewrite !add_ttls. apply insert_insert_eq.
  - by destruct ttl1, ttl2.
  - rewrite !add_ips. apply leibniz_equiv. intros x.
    rewrite !elem_of_union. tauto.
  - by destruct ttl1, ttl2.
Qed.

(** X3.  [remove(ip)] right after [add(ip)] never raises: it returns with
    the IP out of the set and of the TTL dict and the flag [True].  When the
    IP was unknown before the [add], the two calls give the blacklist back
    as it was, but for the dirty flag. *)
Theorem add_then_remove bl elmt ttl now :
  remove (add bl elmt ttl now) elmt
  = (set_dirty (set_ttls (set_ips bl (ips bl ∖ {[elmt]}))
                         (delete elmt (_ttls bl))) true, Return tt) /\
  (elmt ∉ ips bl -> _ttls bl !! elmt = None ->
   remove (add bl elmt ttl now) elmt = (set_dirty bl true, Return tt)).
Proof.
  assert (remove (add bl elmt ttl now) elmt
          = (set_dirty (set_ttls (set_ips bl (ips bl ∖ {[elmt]}))
                                 (delete elmt (_ttls bl))) true, Return tt))
    as Hrm.
  { rewrite (remove_present _ elmt ((fun d => now + d) <$> ttl)).
    - f_equal.
      apply Blacklist_eq;
        cbn [_ttls _cache_server ips _dirty set_dirty set_ttls set_ips].
      + rewrite add_ttls. apply delete_insert_eq.
      + by destruct ttl.
      + rewrite add_ips. apply leibniz_equiv. intros x.
        rewrite !elem_of_difference, elem_of_union. tauto.
      + done.
    - rewrite add_ips. apply elem_of_union_r. by apply elem_of_singleton.
    - rewrite add_ttls. apply lookup_insert_eq. }
  split; [exact Hrm|]. intros Hn Hv. rewrite Hrm. f_equal.
  apply Blacklist_eq; simpl; try done.
  - by apply delete_id.
  - apply leibniz_equiv. intros x. rewrite elem_of_difference, elem_of_singleton.
    split; [tauto|]. intros Hx. split; [done|]. by intros ->.
Qed.

Lemma contains_answer_local bl1 bl2 elmt now :
  (elmt ∈ ips bl1 <-> elmt ∈ ips bl2) ->
  _ttls bl1 !! elmt = _ttls bl2 !! elmt ->
  (contains bl1 elmt now).2 = (contains bl2 elmt now).2.
Proof.
  intros Hips Httl. destruct (decide (elmt ∈ ips bl1)) as [Hin|Hn].
  - assert (elmt ∈ ips bl2) as Hin2 by tauto.
    destruct (_ttls bl1 !! elmt) as [[t|]|] eqn:Hv; symmetry in Httl.
    + destruct (Z.le_gt_cases t now).
      * rewrite (contains_expired bl1 elmt now t) by done.
        by rewrite (contains_expired bl2 elmt now t).
      * rewrite (contains_live bl1 elmt now t) by (done || lia).
        by rewrite (contains_live bl2 elmt now t) by (done || lia).
    + rewrite (contains_forever bl1) by done.
      by rewrite (contains_forever bl2).
    + unfold contains. rewrite !bool_decide_eq_true_2 by done.
      by rewrite Hv, Httl.
  - assert (elmt ∉ ips bl2) as Hn2 by tauto.
    by rewrite !contains_absent.
Qed.

(** X4.  [add], [remove] and a membership check about one IP leave every
    other IP alone: its presence in the set, its TTL entry and the answer
    of a membership check for it, at any clock reading, are what they
    were. *)
Theorem local_op_frame (o : op) e elmt bl w bl' w' r :
  op_subject o = Some e -> e <> elmt ->
  run_op o bl w = Some (bl', w', r) ->
  (elmt ∈ ips bl' <-> elmt ∈ ips bl) /\
  _ttls bl' !! elmt = _ttls bl !! elmt /\
  forall now, (contains bl' elmt now).2 = (contains bl elmt now).2.
Proof.
  intros Hsub Hne Hrun.
  assert ((elmt ∈ ips bl' <-> elmt ∈ ips bl) /\
          _ttls bl' !! elmt = _ttls bl !! elmt) as [Hips Httl].
  { assert (forall b : Blacklist B,
              (elmt ∈ ips (remove b e).1 <-> elmt ∈ ips b) /\
                      _ttls (remove b e).1 !! elmt = _ttls b !! elmt) as Hrm.
    { intros b. unfold remove. destruct (decide (e ∈ ips b)); [|done]. simpl.
      assert (elmt ∈ ips b ∖ {[e]} <-> elmt ∈ ips b) as Hd.
      { rewrite elem_of_difference, elem_of_singleton. split; [tauto|].
        intros Hx. split; [done|]. by intros ->. }
      destruct (_ttls b !! e); simpl; [|done].
      split; [done|]. by apply lookup_delete_ne. }
    destruct o as [e0 ttl now|e0|e0 now| |]; simpl in Hsub, Hrun;
      try discriminate Hsub; injection Hsub as ->.
    - injection Hrun as <- _ _. rewrite add_ips, add_ttls. split.
      + rewrite elem_of_union, elem_of_singleton. split; [|tauto].
        intros [Hx| ->]; [done|]. by destruct Hne.
      + by apply lookup_insert_ne.
    - specialize (Hrm bl). destruct (remove bl e) as [b1 r1].
      by injection Hrun as <- _ _.
    - revert Hrun. unfold contains. destruct (bool_decide (e ∈ ips bl)).
      + destruct (_ttls bl !! e) as [[t|]|]; try by intros [= <- _ _].
        destruct (t - now <=? 0); [|by intros [= <- _ _]].
        specialize (Hrm bl). by destruct (remove bl e) as [b1 []]; intros [= <- _ _].
      + by intros [= <- _ _]. }
  split; [done|]. split; [done|]. intros now.
  by apply contains_answer_local.
Qed.

End LocalRoundTrips.

Lemma add_then_remove_witness :
  remove (add (init (B:=SharedStore.t) None) ip1 (Some 5) 0) ip1
  = (set_dirty (init None) true, Return tt).
Proof.
  apply (proj2 (add_then_remove (init None) ip1 (Some 5) 0)).
  - by_evaluation.
  - reflexivity.
Defined.

Lemma local_op_frame_witness :
  _ttls (add local_ip1 ip2 None 0) !! ip1 = _ttls local_ip1 !! ip1.
Proof.
  refine (proj1 (proj2
    (local_op_frame (OpAdd ip2 None 0) ip2 ip1 local_ip1 SharedStore.empty
       (add local_ip1 ip2 None 0) SharedStore.empty (Return VNone) _ _ _))).
  - reflexivity.
  - discriminate.
  - reflexivity.
Defined.

Section LenAndTime.

Context {B : Type}.
Implicit Types (bl : Blacklist B) (w : World B).

Lemma size_remove_one (s : gset string) x :
  x ∈ s -> S (size (s ∖ {[x]})) = size s.
Proof.
  intros Hin. rewrite size_difference.
  - rewrite size_singleton. assert (size s <> 0%nat); [|lia].
    intros Hz. apply size_empty_inv in Hz. apply leibniz_equiv in Hz.
    rewrite Hz in Hin. by apply not_elem_of_empty in Hin.
  - by apply singleton_subseteq_l.
Qed.

(** X5.  [len] counts the IPs of the set, elapsed ones included until a
    check finds them: [add] of an unknown IP raises it by one and [add] of
    a known IP leaves it; a [remove] that returns lowers it by one; a
    membership check lowers it by one when it answers [False] for a listed
    IP and leaves it otherwise. *)
Theorem len_spec bl elmt :
  (forall ttl now,
     len (add bl elmt ttl now)
     = if bool_decide (elmt ∈ ips bl) then len bl else S (len bl)) /\
  (forall bl', remove bl elmt = (bl', Return tt) -> S (len bl') = len bl) /\
  (forall now bl' b,
     contains bl elmt now = (bl', Return b) ->
     if negb b && bool_decide (elmt ∈ ips bl) then S (len bl') = len bl
     else len bl' = len bl).
Proof.
  unfold len. split; [|split].
  - intros ttl now. rewrite add_ips. case_bool_decide as Hin.
    + f_equal. apply leibniz_equiv. intros x.
      rewrite elem_of_union, elem_of_singleton. split; [|tauto].
      intros [Hx| ->]; done.
    + rewrite size_union, size_singleton; [lia|].
      intros x Hx Hs. apply elem_of_singleton in Hs. by subst.
  - intros bl' Hrm. destruct (remove_returns_inv _ _ _ Hrm) as [Hin [v Hv]].
    rewrite (remove_present bl elmt v) in Hrm by done.
    injection Hrm as <-. simpl. by apply size_remove_one.
  - intros now bl' b Hc. destruct (decide (elmt ∈ ips bl)) as [Hin|Hn].
    + rewrite (bool_decide_eq_true_2 _ Hin), andb_true_r.
      destruct (_ttls bl !! elmt) as [[t|]|] eqn:Hv.
      * destruct (Z.le_gt_cases t now).
        -- rewrite (contains_expired bl elmt now t) in Hc by done.
           injection Hc as <- <-. simpl. by apply size_remove_one.
        -- rewrite (contains_live bl elmt now t) in Hc by (done || lia).
           by injection Hc as <- <-.
      * rewrite contains_forever in Hc by done. by injection Hc as <- <-.
      * unfold contains in Hc. rewrite bool_decide_eq_true_2 in Hc by done.
        rewrite Hv in Hc. discriminate Hc.
    + rewrite (bool_decide_eq_false_2 _ Hn), andb_false_r.
      rewrite contains_absent in Hc by done. by injection Hc as <- _.
Qed.

(** X6.  The answer of a membership check only goes from [True] to
    [False] as the clock advances: on the same blacklist, a check that
    answers [True] at one clock reading answers [True] at every earlier
    one. *)
Theorem contains_monotone bl elmt now now' :
  now' <= now ->
  (contains bl elmt now).2 = Return true ->
  (contains bl elmt now').2 = Return true.
Proof.
  intros Hle Hret. destruct (decide (elmt ∈ ips bl)) as [Hin|Hn].
  - destruct (_ttls bl !! elmt) as [[t|]|] eqn:Hv.
    + destruct (Z.le_gt_cases t now).
      * rewrite (contains_expired bl elmt now t) in Hret by done.
        discriminate Hret.
      * by rewrite (contains_live bl elmt now' t) by (done || lia).
    + by rewrite contains_forever.
    + unfold contains in Hret |- *.
      rewrite bool_decide_eq_true_2 in Hret by done. rewrite Hv in Hret.
      discriminate Hret.
  - rewrite contains_absent in Hret by done. discriminate Hret.
Qed.

(** X7.  When an IP is in the set without TTL entry (the set was changed
    from outside the class), the membership check raises [KeyError] and
    changes nothing, and [remove] raises [KeyError] after it has taken the
    IP out of the set: the dirty flag is not set, and a check made
    afterwards answers [False]. *)
Theorem missing_ttl_entry bl elmt :
  elmt ∈ ips bl -> _ttls bl !! elmt = None ->
  (forall now, contains bl elmt now = (bl, Raise (KeyError elmt))) /\
  remove bl elmt = (set_ips bl (ips bl ∖ {[elmt]}), Raise (KeyError elmt)) /\
  _dirty (remove bl elmt).1 = _dirty bl /\
  (forall now,
     contains (remove bl elmt).1 elmt now
     = ((remove bl elmt).1, Return false)).
Proof.
  intros Hin Hv.
  assert (remove bl elmt
          = (set_ips bl (ips bl ∖ {[elmt]}), Raise (KeyError elmt))) as Hrm.
  { unfold remove. rewrite decide_True by done. simpl. by rewrite Hv. }
  split; [|split; [done|split]].
  - intros now. unfold contains. rewrite bool_decide_eq_true_2 by done.
    by rewrite Hv.
  - by rewrite Hrm.
  - intros now. rewrite Hrm. simpl. apply contains_absent. simpl.
    intros [_ Hne]%elem_of_difference. apply Hne. by apply elem_of_singleton.
Qed.

End LenAndTime.

Lemma len_spec_witness :
  S (len (remove expiring_ip1 ip1).1) = len expiring_ip1.
Proof.
  apply (proj1 (proj2 (len_spec expiring_ip1 ip1))).
  vm_compute. reflexivity.
Defined.

Lemma contains_monotone_witness :
  (contains expiring_ip1 ip1 2).2 = Return true.
Proof.
  apply (contains_monotone expiring_ip1 ip1 4 2).
  - lia.
  - vm_compute. reflexivity.
Defined.

Lemma missing_ttl_entry_witness :
  remove tampered ip1
  = (set_ips tampered (ips tampered ∖ {[ip1]}), Raise (KeyError ip1)).
Proof.
  destruct (missing_ttl_entry tampered ip1) as (_ & Hrm & _).
  - by_evaluation.
  - reflexivity.
  - exact Hrm.
Defined.

(** ** Further properties of the synchronisation *)

Section Sync.

Context {B : Type}.
Implicit Types (bl : Blacklist B) (w : World B) (cs : CacheServer B).

Lemma dict_update_twice (d e : gmap string (option Z)) :
  dict_update (dict_update d e) e = dict_update d e.
Proof.
  unfold dict_update. apply map_eq. intros k. rewrite !lookup_union.
  by destruct (e !! k), (d !! k).
Qed.

(** X8.  Pulling twice is pulling once: when the second [get] answers what
    the first one answered, the second [update] leaves the blacklist as the
    first one made it. *)
Theorem update_twice bl w cs :
  _cache_server bl = Some cs ->
  (cache_get cs blacklist_key (store (update bl w).2)).1
  = (cache_get cs blacklist_key (store w)).1 ->
  (update (update bl w).1 (update bl w).2).1 = (update bl w).1.
Proof.
  intros Hcs Hsame.
  destruct (update_cases bl w cs Hcs) as (res & _ & Hres & Hcase).
  assert (_cache_server (update bl w).1 = Some cs) as Hcs1.
  { by rewrite update_server. }
  destruct (update_cases (update bl w).1 (update bl w).2 cs Hcs1)
    as (res' & _ & Hres' & Hcase').
  rewrite Hsame, <- Hres in Hres'. subst res'.
  rewrite update_ips in Hcase'.
  destruct res as [[rips rttls]|]; [|done].
  destruct (issuperset (ips bl) rips); [done|].
  rewrite Hcase'. rewrite Hcase.
  apply Blacklist_eq; simpl; try done. apply dict_update_twice.
Qed.

Lemma rounds_keys (rounds : list (snapshot * option snapshot)) :
  Forall (fun e => event_key e = blacklist_key)
         (concat (map round_calls rounds)).
Proof.
  induction rounds as [|r rounds IH]; simpl; [constructor|].
  by repeat constructor.
Qed.

Lemma save_server bl w r :
  save bl w = Some r -> _cache_server r.1 = _cache_server bl.
Proof.
  unfold save, save_with. destruct (_cache_server bl) as [cs|] eqn:Hcs.
  - destruct (negb (_dirty bl)); [by intros [= <-]|].
    apply (save_loop_preserves (fun b => _cache_server b = Some cs));
      [| |done].
    + intros b w0 Hb. by rewrite update_server.
    + done.
  - by intros [= <-].
Qed.

(** The calls of any [save]: nothing, or rounds and a last [cas]. *)
Lemma save_calls bl w bl' w' :
  save bl w = Some (bl', w') ->
  (bl' = bl /\ w' = w) \/
  exists rounds final,
    _dirty bl = true /\
    calls w' = calls w ++ concat (map round_calls rounds) ++ final_calls final /\
    match final with
    | Some data => _dirty bl' = false /\ data = (ips bl', _ttls bl')
    | None => _dirty bl' = true
    end.
Proof.
  intros Hs. destruct (_cache_server bl) as [cs|] eqn:Hcs.
  - destruct (_dirty bl) eqn:Hd.
    + right.
      destruct (save_with_trace 10 bl w cs)
        as (bl2 & w2 & rounds & final & Hrun & Htrace & Hfinal); [done..|].
      unfold save in Hs. rewrite Hrun in Hs. injection Hs as <- <-.
      exists rounds, final. split; [done|]. split; [done|].
      destruct final; tauto.
    + left. unfold save in Hs. rewrite save_with_early in Hs by (by left).
      by injection Hs as <- <-.
  - left. unfold save in Hs. rewrite save_with_early in Hs by (by right).
    by injection Hs as <- <-.
Qed.

(** X9.  What the operations do to the cache server.  [add], [remove] and
    the membership check never call it; [update] makes at most one call, a
    [get]; every call, of [save] too, is on the key
    ['keyexchange:blacklist']; a blacklist built without cache server makes
    no call at all; and no operation changes which server the blacklist
    talks to. *)
Theorem server_calls_discipline (o : op) bl w bl' w' r :
  run_op o bl w = Some (bl', w', r) ->
  _cache_server bl' = _cache_server bl /\
  (_cache_server bl = None -> w' = w) /\
  (is_Some (op_subject o) -> w' = w) /\
  exists new,
    calls w' = calls w ++ new /\
    Forall (fun e => event_key e = blacklist_key) new /\
    (o = OpUpdate ->
     (length new <= 1)%nat /\ Forall (fun e => is_cas e = false) new).
Proof.
  assert (forall w0 : World B, exists new : list event,
            calls w0 = calls w0 ++ new /\
            Forall (fun e => event_key e = blacklist_key) new /\
            (o = OpUpdate ->
             (length new <= 1)%nat /\ Forall (fun e => is_cas e = false) new))
    as Hnil.
  { intros w0. exists []. rewrite app_nil_r. split; [done|].
    split; [constructor|]. intros _. simpl. split; [lia|constructor]. }
  destruct o as [e ttl now|e|e now| |]; simpl.
  - intros [= <- <- _]. split; [by destruct ttl|]. by repeat split.
  - destruct (remove bl e) as [bl1 r1] eqn:Hrm. intros [= <- <- _].
    split; [|by repeat split]. revert Hrm. unfold remove.
    destruct (decide (e ∈ ips bl)); simpl; [|by intros [= <- _]].
    by destruct (_ttls bl !! e); intros [= <- _].
  - destruct (contains bl e now) as [bl1 r1] eqn:Hc. intros [= <- <- _].
    split; [|by repeat split]. revert Hc. unfold contains.
    destruct (bool_decide (e ∈ ips bl)); [|by intros [= <- _]].
    destruct (_ttls bl !! e) as [[t|]|] eqn:Hv; try by intros [= <- _].
    destruct (t - now <=? 0); [|by intros [= <- _]].
    unfold remove. destruct (decide (e ∈ ips bl)); simpl.
    + rewrite Hv. by intros [= <- _].
    + by intros [= <- _].
  - pose proof (update_server bl w) as Hsrv.
    destruct (_cache_server bl) as [cs|] eqn:Hcs.
    + destruct (update_cases bl w cs Hcs) as (res & Hcalls & _ & _).
      destruct (update bl w) as [bl1 w1]. intros [= <- <- _]. simpl in *.
      split; [done|]. split; [done|]. split; [by intros [? ?]|].
      exists [EvGet blacklist_key res]. split; [done|].
      split; [by repeat constructor|]. intros _. simpl.
      split; [lia|by repeat constructor].
    + unfold update in *. rewrite Hcs in *. intros [= <- <- _].
      split; [done|]. by repeat split.
  - destruct (save bl w) as [[bl1 w1]|] eqn:Hs; [|done].
    intros [= <- <- _]. split; [apply (save_server bl w (bl1, w1) Hs)|].
    split.
    { intros Hn. unfold save in Hs. rewrite save_with_early in Hs by (by right).
      by injection Hs as <- <-. }
    split; [by intros [? ?]|].
    destruct (save_calls bl w bl1 w1 Hs)
      as [[-> ->]|(rounds & final & _ & Hcalls & _)]; [apply Hnil|].
    exists (concat (map round_calls rounds) ++ final_calls final).
    split; [done|]. split; [|done].
    apply Forall_app. split; [apply rounds_keys|].
    destruct final; simpl; by repeat constructor.
Qed.

Lemma last_accepted_app (l1 l2 : list event) :
  last_accepted (l1 ++ l2)
  = match last_accepted l2 with
    | Some data => Some data
    | None => last_accepted l1
    end.
Proof.
  induction l1 as [|e l1 IH]; simpl.
  - by destruct (last_accepted l2).
  - rewrite IH. by destruct (last_accepted l2).
Qed.

Lemma run_op_clean_is_published (o : op) bl w bl' w' r :
  is_pull o = false -> ttls_cover bl -> clean_is_published bl w ->
  run_op o bl w = Some (bl', w', r) -> clean_is_published bl' w'.
Proof.
  intros Hpull Hcov Hclean.
  destruct o as [e ttl now|e|e now| |]; simpl; try discriminate Hpull.
  - intros [= <- <- _]. intros Hd. by destruct ttl.
  - unfold remove. destruct (decide (e ∈ ips bl)) as [Hin|Hn]; simpl.
    + assert (is_Some (_ttls bl !! e)) as [v Hv].
      { apply elem_of_dom. by apply Hcov. }
      rewrite Hv. intros [= <- <- _]. by intros Hd.
    + by intros [= <- <- _].
  - unfold contains. destruct (bool_decide (e ∈ ips bl)) eqn:Hb;
      [|by intros [= <- <- _]].
    destruct (_ttls bl !! e) as [[t|]|] eqn:Hv; try by intros [= <- <- _].
    destruct (t - now <=? 0); [|by intros [= <- <- _]].
    apply bool_decide_eq_true in Hb.
    rewrite (remove_present bl e (Some t)) by done.
    intros [= <- <- _]. by intros Hd.
  - destruct (save bl w) as [[bl1 w1]|] eqn:Hs; [|done].
    intros [= <- <- _].
    destruct (save_calls bl w bl1 w1 Hs)
      as [[-> ->]|(rounds & final & _ & Hcalls & Hfinal)]; [done|].
    intros Hd. destruct final as [data|]; [|congruence].
    destruct Hfinal as [_ ->]. rewrite Hcalls, app_assoc, last_accepted_app.
    done.
Qed.

(** X10.  The dirty flag tells the truth as long as the caller does not
    call [update] itself: on a new blacklist, and after any sequence of
    [add], [remove], membership checks and [save] on it, a blacklist whose
    flag is [False] is exactly the snapshot of the last [cas] the server
    accepted, or is still empty when none was accepted. *)
Theorem clean_is_published_invariant :
  (forall (cs : option (CacheServer B)) (s : B),
     clean_is_published (init cs) (Build_World s [])) /\
  (forall (os : list op) bl w,
     Forall (fun o => is_pull o = false) os ->
     ttls_cover bl -> clean_is_published bl w ->
     exists bl' w',
       run_ops os bl w = Some (bl', w') /\
       ttls_cover bl' /\ clean_is_published bl' w').
Proof.
  split; [by intros cs s _|].
  induction os as [|o os IH]; intros bl w Hall Hcov Hclean.
  - by exists bl, w.
  - apply Forall_cons in Hall as [Ho Hos].
    destruct (run_op_returns o bl w) as [[[bl1 w1] r] Hop].
    destruct (IH bl1 w1 Hos) as (bl' & w' & Hrun & Hcov' & Hclean').
    + by apply (run_op_cover o bl w bl1 w1 r).
    + by apply (run_op_clean_is_published o bl w bl1 w1 r).
    + exists bl', w'. simpl. by rewrite Hop.
Qed.

End Sync.

Lemma update_twice_witness :
  (update (update local_ip1 (SharedStore.holding remote_two_ips [])).1
          (update local_ip1 (SharedStore.holding remote_two_ips [])).2).1
  = (update local_ip1 (SharedStore.holding remote_two_ips [])).1.
Proof.
  apply (update_twice local_ip1 (SharedStore.holding remote_two_ips [])
           SharedStore.server).
  - reflexivity.
  - reflexivity.
Defined.

Lemma server_calls_discipline_witness :
  _cache_server (add local_ip1 ip2 None 0) = _cache_server local_ip1.
Proof.
  refine (proj1 (server_calls_discipline (OpAdd ip2 None 0) local_ip1
                   SharedStore.empty _ SharedStore.empty (Return VNone) _)).
  reflexivity.
Defined.

Lemma clean_is_published_invariant_witness :
  exists bl' w',
    run_ops publishing_caller (init (Some SharedStore.server))
            SharedStore.empty = Some (bl', w') /\
    ttls_cover bl' /\ clean_is_published bl' w'.
Proof.
  apply (proj2 (@clean_is_published_invariant SharedStore.t)).
  - unfold publishing_caller. repeat constructor.
  - by_evaluation.
  - intros _. split; reflexivity.
Defined.

(** The publishing caller ends clean, and what the server last accepted
    is the empty blacklist it ends with: [ip1] expired at the check of time
    9 and [ip2] was removed. *)
Example publishing_caller_ends_clean :
  (fun r => (_dirty r.1, elements (ips r.1),
             (fun d => elements d.1) <$> last_accepted (calls r.2)))
    <$> run_ops publishing_caller (init (Some SharedStore.server))
          SharedStore.empty
  = Some (false, [], Some []).
Proof. vm_compute. reflexivity. Qed.

(** ** Local operations about different IPs *)

Section Commute.

Context {B : Type}.
Implicit Types (bl : Blacklist B) (w : World B).

(** X11.  After [remove(ip)], whether it returned or raised, a membership
    check for the IP answers [False] at any clock reading and changes
    nothing. *)
Theorem remove_then_contains bl elmt now :
  contains (remove bl elmt).1 elmt now = ((remove bl elmt).1, Return false).
Proof.
  apply contains_absent. unfold remove.
  destruct (decide (elmt ∈ ips bl)) as [Hin|Hn]; [|done]. simpl.
  assert (elmt ∉ ips bl ∖ {[elmt]}) as Hgone.
  { intros [_ Hne]%elem_of_difference. apply Hne. by apply elem_of_singleton. }
  by destruct (_ttls bl !! elmt).
Qed.

(** The code of the three local operations against the table. *)
Lemma run_op_local (o : op) e bl w :
  op_subject o = Some e ->
  run_op o bl w
  = Some (apply_change e
            (local_change o (bool_decide (e ∈ ips bl)) (_ttls bl !! e)) bl,
          w,
          local_outcome o (bool_decide (e ∈ ips bl)) (_ttls bl !! e)).
Proof.
  intros Hsub.
  destruct o as [e0 ttl now|e0|e0 now| |]; simpl in Hsub;
    try discriminate Hsub; injection Hsub as ->; simpl.
  - by destruct ttl.
  - unfold remove. destruct (decide (e ∈ ips bl)) as [Hin|Hn].
    + rewrite bool_decide_eq_true_2 by done. simpl.
      by destruct (_ttls bl !! e).
    + by rewrite bool_decide_eq_false_2.
  - unfold contains. destruct (decide (e ∈ ips bl)) as [Hin|Hn].
    + rewrite bool_decide_eq_true_2 by done.
      destruct (_ttls bl !! e) as [[t|]|] eqn:Hv; try done.
      destruct (t - now <=? 0); [|done].
      by rewrite (remove_present bl e (Some t)).
    + by rewrite bool_decide_eq_false_2.
Qed.

Lemma apply_change_frame e1 e2 (c : change) bl :
  e1 <> e2 ->
  bool_decide (e2 ∈ ips (apply_change e1 c bl)) = bool_decide (e2 ∈ ips bl) /\
  _ttls (apply_change e1 c bl) !! e2 = _ttls bl !! e2.
Proof.
  intros Hne.
  assert (e2 ∈ ips bl ∖ {[e1]} <-> e2 ∈ ips bl) as Hdiff.
  { rewrite elem_of_difference, elem_of_singleton. split; [tauto|].
    intros Hx. split; [done|]. by intros ->. }
  assert (e2 ∈ ips bl ∪ {[e1]} <-> e2 ∈ ips bl) as Hun.
  { rewrite elem_of_union, elem_of_singleton. split; [|tauto].
    intros [Hx| ->]; [done|]. by destruct Hne. }
  destruct c; simpl.
  - done.
  - split; [by apply bool_decide_ext|]. by apply lookup_insert_ne.
  - split; [by apply bool_decide_ext|]. by apply lookup_delete_ne.
  - split; [by apply bool_decide_ext|done].
Qed.

Lemma apply_change_comm e1 e2 (c1 c2 : change) bl :
  e1 <> e2 ->
  apply_change e2 c2 (apply_change e1 c1 bl)
  = apply_change e1 c1 (apply_change e2 c2 bl).
Proof.
  intros Hne. destruct c1, c2; simpl; try done; apply Blacklist_eq; simpl;
    try done;
    try (apply leibniz_equiv; intros x;
         rewrite ?elem_of_union, ?elem_of_difference, ?elem_of_union,
           ?elem_of_difference, ?elem_of_singleton; intuition congruence);
    try (apply map_eq; intros k;
         rewrite ?lookup_insert, ?lookup_delete, ?lookup_insert, ?lookup_delete;
         repeat case_decide; congruence).
Qed.

(** X12.  Local operations about two different IPs commute: run in either
    order, [add], [remove] or a membership check about one IP and one about
    another leave the same blacklist, and each of the two returns or raises
    the same in both orders. *)
Theorem local_ops_commute (o1 o2 : op) e1 e2 bl w :
  op_subject o1 = Some e1 -> op_subject o2 = Some e2 -> e1 <> e2 ->
  exists a b ab r1 r2,
    run_op o1 bl w = Some (a, w, r1) /\ run_op o2 a w = Some (ab, w, r2) /\
    run_op o2 bl w = Some (b, w, r2) /\ run_op o1 b w = Some (ab, w, r1).
Proof.
  intros H1 H2 Hne.
  set (c1 := local_change o1 (bool_decide (e1 ∈ ips bl)) (_ttls bl !! e1)).
  set (c2 := local_change o2 (bool_decide (e2 ∈ ips bl)) (_ttls bl !! e2)).
  exists (apply_change e1 c1 bl), (apply_change e2 c2 bl),
    (apply_change e2 c2 (apply_change e1 c1 bl)),
    (local_outcome o1 (bool_decide (e1 ∈ ips bl)) (_ttls bl !! e1)),
    (local_outcome o2 (bool_decide (e2 ∈ ips bl)) (_ttls bl !! e2)).
  split; [by apply run_op_local|]. split; [|split; [by apply run_op_local|]].
  - rewrite (run_op_local o2 e2) by done.
    by destruct (apply_change_frame e1 e2 c1 bl Hne) as [-> ->].
  - rewrite (run_op_local o1 e1) by done.
    assert (e2 <> e1) as Hne' by congruence.
    destruct (apply_change_frame e2 e1 c2 bl Hne') as [-> ->].
    by rewrite (apply_change_comm e1 e2).
Qed.

End Commute.

Lemma local_ops_commute_witness :
  exists a b ab r1 r2,
    run_op (OpContains ip1 7) (add expiring_ip1 ip2 (Some 3) 0)
           SharedStore.empty = Some (a, SharedStore.empty, r1) /\
    run_op (OpRemove ip2) a SharedStore.empty
      = Some (ab, SharedStore.empty, r2) /\
    run_op (OpRemove ip2) (add expiring_ip1 ip2 (Some 3) 0)
           SharedStore.empty = Some (b, SharedStore.empty, r2) /\
    run_op (OpContains ip1 7) b SharedStore.empty
      = Some (ab, SharedStore.empty, r1).
Proof.
  apply (local_ops_commute (OpContains ip1 7) (OpRemove ip2) ip1 ip2).
  - reflexivity.
  - reflexivity.
  - discriminate.
Defined.

(** ** What gets published *)

Section Published.

Context {B : Type}.
Implicit Types (bl : Blacklist B) (w : World B) (cs : CacheServer B).

Lemma save_loop_carries_covered fuel : forall tries cs bl w r,
  ttls_cover bl ->
  save_loop fuel tries cs bl w = Some r ->
  exists new, calls r.2 = calls w ++ new /\ Forall carries_covered new.
Proof.
  induction fuel as [|fuel IH]; intros tries cs bl w r Hcov Hrun.
  - simpl in Hrun. destruct (tries <? 10); [done|]. injection Hrun as <-.
    exists []. by rewrite app_nil_r.
  - destruct (Z.lt_ge_cases tries 10) as [Hlt|Hge].
    + rewrite save_loop_step in Hrun by done.
      pose proof (server_cas_calls cs blacklist_key (ips bl, _ttls bl) w) as Hc.
      destruct (server_cas cs blacklist_key (ips bl, _ttls bl) w) as [ok w1].
      simpl in Hc. destruct ok.
      * injection Hrun as <-. eexists. split; [exact Hc|].
        by repeat constructor.
      * assert (exists n1, calls (update bl w1).2 = calls w1 ++ n1 /\
                           Forall carries_covered n1) as (n1 & Hc1 & Hn1).
        { destruct (_cache_server bl) as [cs'|] eqn:Hcs.
          - destruct (update_cases bl w1 cs' Hcs) as (res & Hcalls & _ & _).
            exists [EvGet blacklist_key res]. by repeat constructor.
          - exists []. unfold update. rewrite Hcs. simpl.
            by rewrite app_nil_r. }
        destruct (IH _ _ _ _ _ (update_cover bl w1 Hcov) Hrun)
          as (n2 & Hc2 & Hn2).
        exists ([EvCas blacklist_key (ips bl, _ttls bl) false] ++ n1 ++ n2).
        split; [by rewrite Hc2, Hc1, Hc, <- !app_assoc|].
        apply Forall_app. split; [by repeat constructor|].
        by apply Forall_app.
    + rewrite save_loop_exit in Hrun by done. injection Hrun as <-.
      exists []. by rewrite app_nil_r.
Qed.

(** X13.  A blacklist whose IPs all have a TTL entry never hands the
    server a snapshot that lists an IP without TTL entry: every [cas] that
    [save] makes, refused or accepted, carries such a snapshot. *)
Theorem save_publishes_covered bl w bl' w' :
  ttls_cover bl ->
  save bl w = Some (bl', w') ->
  exists new, calls w' = calls w ++ new /\ Forall carries_covered new.
Proof.
  intros Hcov. unfold save, save_with.
  destruct (_cache_server bl) as [cs|].
  - destruct (negb (_dirty bl)).
    + intros [= <- <-]. exists []. by rewrite app_nil_r.
    + intros Hrun.
      apply (save_loop_carries_covered 10 0 cs bl w (bl', w') Hcov Hrun).
  - intros [= <- <-]. exists []. by rewrite app_nil_r.
Qed.

End Published.

Lemma save_publishes_covered_witness :
  exists bl' w' new,
    save local_ip1 contended = Some (bl', w') /\
    calls w' = calls contended ++ new /\ Forall carries_covered new.
Proof.
  destruct (save_returns local_ip1 contended) as [[bl' w'] Hs].
  destruct (save_publishes_covered local_ip1 contended bl' w') as (new & Hn).
  - by_evaluation.
  - exact Hs.
  - exists bl', w', new. split; [exact Hs|exact Hn].
Defined.
